(** * fair: aggregation store, broadcast hub, state client and rotating tracker

    A shallow embedding of the state-sharing fabric and of the local
    tracker of github.com/satmihir/fair, and the properties its
    specification states about them.

    Conventions.
    - A Go [uint64] is a [Z]; the store only compares such values and uses
      them as map keys, and the one place that does arithmetic on them (the
      seed computation of the tracker) writes the wrap-around out.
    - A Go [float64] is a primitive binary64 [float]: [PrimFloat.add] and
      [PrimFloat.ltb] are the IEEE 754 operations Go's [+], [<] and [>]
      compile to, NaN, infinities and signed zeros included.
    - A Go map is a [gmap]; iteration order, which Go leaves unspecified,
      is the order of [map_to_list], and no statement below depends on it.
    - A buffered channel is its buffer, its capacity and a closed flag.
    - Every method that runs under a lock, and every iteration of a
      single-threaded event loop, is one atomic state transition. *)

From Stdlib Require Import ZArith Floats Lia.
From stdpp Require Import gmap list option strings sorting.

Set Warnings "-inexact-float,-clear-no-such-hyp".

(** ** pkg/state/api/v1: the wire messages

    The package is generated by the protobuf compiler and its declarations
    are missing from the sources; the records below follow the wire schema
    of the specification and carry the fields the other packages read and
    write. *)

Module Statepb.

(** Modelled from the spec: the declaration of [statepb.Bucket] is missing;
    a bucket on the wire is [{row_id: u64, col_id: u64, prob: f64,
    last_update_time_ms: u64}], as stored and as broadcast. *)
Record Bucket : Type := mkBucket {
  RowId : Z;
  ColId : Z;
  Prob : float;
  LastUpdateTimeMs : Z
}.

(** Modelled from the spec: the declaration of [statepb.BucketDelta] is
    missing; a delta is [{row_id: u64, col_id: u64, delta_prob: f64,
    last_update_time_ms: u64}], one signed change to one bucket. *)
Record BucketDelta : Type := mkBucketDelta {
  delta_RowId : Z;
  delta_ColId : Z;
  DeltaProb : float;
  delta_LastUpdateTimeMs : Z
}.

(** Modelled from the spec: the declaration of [statepb.SyncRequest] is
    missing; a request is exactly one of [DeltaUpdate {seed, deltas}] and
    [StateRequest {seed}]. *)
Inductive SyncRequest : Type :=
  | DeltaUpdate (Seed : Z) (Deltas : list BucketDelta)
  | StateRequest (Seed : Z).

(** Modelled from the spec: the declaration of [statepb.SyncResponse] is
    missing; a response is [{seed: u64, buckets}]. *)
Record SyncResponse : Type := mkSyncResponse {
  Seed : Z;
  Buckets : list Bucket
}.

End Statepb.

(** ** Buffered channels

    A channel made by [make(chan T, n)]: the values buffered in arrival
    order, the capacity, and whether [close] has been called on it. *)

Module Chan.

Record chan (A : Type) : Type := mkChan {
  buf : list A;
  cap : nat;
  closed : bool
}.
Arguments mkChan {A} _ _ _.
Arguments buf {A} _.
Arguments cap {A} _.
Arguments closed {A} _.

Definition make {A : Type} (n : nat) : chan A :=
  {| buf := []; cap := n; closed := false |}.

Definition push {A : Type} (ch : chan A) (v : A) : chan A :=
  {| buf := buf ch ++ [v]; cap := cap ch; closed := closed ch |}.

(** The outcome of [select { case ch <- v: ... default: ... }]. With a
    positive capacity the send case is ready exactly when the buffer has a
    free slot (a receiver can only be parked on an empty buffer); a send on
    a closed channel panics, inside a [select] too. *)
Inductive sendResult (A : Type) : Type :=
  | Sent (ch' : chan A)
  | NotReady
  | SendOnClosed.
Arguments Sent {A} _.
Arguments NotReady {A}.
Arguments SendOnClosed {A}.

Definition trySend {A : Type} (ch : chan A) (v : A) : sendResult A :=
  if closed ch then SendOnClosed
  else if (length (buf ch) <? cap ch)%nat then Sent (push ch v)
  else NotReady.

(** [close(ch)]; closing a closed channel panics ([None]). *)
Definition close {A : Type} (ch : chan A) : option (chan A) :=
  if closed ch then None
  else Some {| buf := buf ch; cap := cap ch; closed := true |}.

(** A receive that finds a buffered value takes the oldest one. *)
Definition recv {A : Type} (ch : chan A) : option (A * chan A) :=
  match buf ch with
  | [] => None
  | v :: rest => Some (v, {| buf := rest; cap := cap ch; closed := closed ch |})
  end.

End Chan.

(** ** pkg/state/store/inmemory.go *)

Module Store.

Import Statepb.

(** The field-by-field copy the store hands out instead of its own pointer. *)
Definition copyBucket (b : Bucket) : Bucket :=
  {| RowId := RowId b; ColId := ColId b; Prob := Prob b;
     LastUpdateTimeMs := LastUpdateTimeMs b |}.

(** [InMemoryStore.buckets]: seed -> row -> col -> bucket. *)
Abbreviation buckets := (gmap Z (gmap Z (gmap Z Bucket))).

(** The value a missing map entry reads as ([nil] map, absent bucket). *)
Definition rowsOf (s : buckets) (seed : Z) : gmap Z (gmap Z Bucket) :=
  default ∅ (s !! seed).

Definition colsOf (s : buckets) (seed rowID : Z) : gmap Z Bucket :=
  default ∅ (rowsOf s seed !! rowID).

Definition bucketAt (s : buckets) (seed rowID colID : Z) : option Bucket :=
  colsOf s seed rowID !! colID.

(** The "Clamp probability to [0.0, 1.0]" statement of [ApplyDelta]:
    [if p < 0.0 { p = 0.0 } else if p > 1.0 { p = 1.0 }]. *)
Definition clamp (p : float) : float :=
  if PrimFloat.ltb p 0%float then 0%float
  else if PrimFloat.ltb 1%float p then 1%float
  else p.

(** "Max-Timestamp-Wins": [if timestampMs > last { last = timestampMs }]. *)
Definition maxTimestamp (last timestampMs : Z) : Z :=
  if (last <? timestampMs)%Z then timestampMs else last.

(** The bucket [ApplyDelta] creates when the address is new. *)
Definition freshBucket (rowID colID : Z) : Bucket :=
  {| RowId := rowID; ColId := colID; Prob := 0%float; LastUpdateTimeMs := 0 |}.

(** [InMemoryStore.ApplyDelta]; runs under the write lock. The Go function
    also returns an error, which is always [nil]. *)
Definition ApplyDelta (s : buckets) (seed rowID colID : Z) (deltaProb : float)
    (timestampMs : Z) : buckets * Bucket :=
  let seedMap := rowsOf s seed in
  let rowMap := colsOf s seed rowID in
  let bucket :=
    match rowMap !! colID with
    | Some b => b
    | None => freshBucket rowID colID
    end in
  let prob := clamp (PrimFloat.add (Prob bucket) deltaProb) in
  let ts := maxTimestamp (LastUpdateTimeMs bucket) timestampMs in
  let bucket' :=
    {| RowId := RowId bucket; ColId := ColId bucket; Prob := prob;
       LastUpdateTimeMs := ts |} in
  (<[seed := <[rowID := <[colID := bucket']> rowMap]> seedMap]> s,
   copyBucket bucket').

(** [InMemoryStore.GetSeed]; runs under the read lock. An absent seed gives
    the empty slice, a present one the copies of all its buckets. *)
Definition GetSeed (s : buckets) (seed : Z) : list Bucket :=
  match s !! seed with
  | None => []
  | Some seedMap =>
      rowMap ← (map_to_list seedMap).*2;
      copyBucket <$> (map_to_list rowMap).*2
  end.

(** [InMemoryStore.EvictBefore]: range over the top-level keys and delete
    those below [seed] from the very map being ranged over. *)
Definition EvictBefore (s : buckets) (seed : Z) : buckets :=
  map_fold (λ sKey _ acc, if (sKey <? seed)%Z then delete sKey acc else acc) s s.

(** A run of [ApplyDelta] calls, as the service issues them for the deltas
    it receives: the final store and the buckets returned, in call order. *)
Record Delta : Type := mkDelta {
  d_seed : Z; d_row : Z; d_col : Z; d_prob : float; d_ts : Z
}.

Fixpoint applyAll (s : buckets) (ds : list Delta) : buckets * list Bucket :=
  match ds with
  | [] => (s, [])
  | d :: ds' =>
      let '(s1, b) := ApplyDelta s (d_seed d) (d_row d) (d_col d) (d_prob d) (d_ts d) in
      let '(s2, bs) := applyAll s1 ds' in
      (s2, b :: bs)
  end.

(** The store of the repository's eviction test: one bucket under each of
    the seeds 1, 2 and 3. *)
Definition threeSeeds : buckets :=
  (applyAll ∅ [mkDelta 1 1 1 0.5 100; mkDelta 2 1 1 0.5 200; mkDelta 3 1 1 0.5 300]).1.

(** What a reader can see of one address: its probability and timestamp. *)
Definition probAt (s : buckets) (seed rowID colID : Z) : option float :=
  Prob <$> bucketAt s seed rowID colID.

Definition timeAt (s : buckets) (seed rowID colID : Z) : option Z :=
  LastUpdateTimeMs <$> bucketAt s seed rowID colID.

(** Membership in the closed unit interval, by IEEE comparison: false for
    NaN, true for both zeros. *)
Definition in_unit (p : float) : bool :=
  PrimFloat.leb 0%float p && PrimFloat.leb p 1%float.

(** The probability and the timestamp stored at an address, read as those
    of a newly made bucket ([0.0] and [0]) when the address is absent. *)
Definition oldProb (s : buckets) (seed rowID colID : Z) : float :=
  default 0%float (probAt s seed rowID colID).

Definition oldTime (s : buckets) (seed rowID colID : Z) : Z :=
  default 0%Z (timeAt s seed rowID colID).

(** Two floats denote the same value: the same bits, or equal under IEEE
    comparison (which identifies the two zeros). *)
Definition same_number (x y : float) : Prop :=
  x = y ∨ PrimFloat.eqb x y = true.

(** The clamp as the specification words it, [clamp(x, 0, 1)]. *)
Definition spec_clamp (x lo hi : float) : float :=
  if PrimFloat.ltb x lo then lo else if PrimFloat.ltb hi x then hi else x.

End Store.

(** ** pkg/broadcast/hub.go *)

Module Hub.

Import Statepb.

(** A [*Client] is an address; the record behind it holds the buffered
    [Send] channel (the back pointer to the hub plays no role). *)
Abbreviation ptr := positive.

Record Client : Type := mkClient {
  Send : Chan.chan SyncResponse
}.

(** The hub's client set ([map[*Client]bool], only ever holding [true])
    together with the client records its keys point to. *)
Record State : Type := mkState {
  clients : gset ptr;
  mem : gmap ptr Client
}.

(** [NewHub]. *)
Definition NewHub : State := {| clients := ∅; mem := ∅ |}.

(** What arrives on the three channels [Run] selects over. *)
Inductive event : Type :=
  | register (client : ptr)
  | unregister (client : ptr)
  | broadcast (message : SyncResponse).

Definition setSend (st : State) (client : ptr) (ch : Chan.chan SyncResponse) : State :=
  {| clients := clients st; mem := <[client := {| Send := ch |}]> (mem st) |}.

Definition dropClient (st : State) (client : ptr) : State :=
  {| clients := clients st ∖ {[client]}; mem := mem st |}.

(** Whether a client's queue has a free slot, and the client record one
    iteration of the fan-out loop leaves behind: the message appended, or
    the queue closed. *)
Definition hasRoom (c : Client) : bool :=
  (length (Chan.buf (Send c)) <? Chan.cap (Send c))%nat.

Definition afterOffer (msg : SyncResponse) (c : Client) : Client :=
  if hasRoom c
  then {| Send := Chan.push (Send c) msg |}
  else {| Send := {| Chan.buf := Chan.buf (Send c); Chan.cap := Chan.cap (Send c);
                     Chan.closed := true |} |}.

(** One iteration of the fan-out loop:
    [select { case client.Send <- message: default: close(client.Send);
    delete(h.clients, client) }]. [None] is a panic. *)
Definition offer (message : SyncResponse) (st : State) (client : ptr) : option State :=
  c ← mem st !! client;
  match Chan.trySend (Send c) message with
  | Chan.Sent ch' => Some (setSend st client ch')
  | Chan.NotReady =>
      ch' ← Chan.close (Send c);
      Some (dropClient (setSend st client ch') client)
  | Chan.SendOnClosed => None
  end.

(** [for client := range h.clients { ... }]: every key present when the
    loop starts is visited once; an iteration deletes no key but its own. *)
Fixpoint rangeClients (message : SyncResponse) (cs : list ptr) (st : State) : option State :=
  match cs with
  | [] => Some st
  | client :: rest => st' ← offer message st client; rangeClients message rest st'
  end.

(** One iteration of the [for { select { ... } }] loop of [Hub.Run]. *)
Definition Run (st : State) (ev : event) : option State :=
  match ev with
  | register client =>
      Some {| clients := {[client]} ∪ clients st; mem := mem st |}
  | unregister client =>
      if decide (client ∈ clients st) then
        c ← mem st !! client;
        ch' ← Chan.close (Send c);
        Some (setSend (dropClient st client) client ch')
      else Some st
  | broadcast message =>
      rangeClients message (elements (clients st)) st
  end.

(** The buffer size [Hub.Register] gives every client. *)
Definition sendBuffer : nat := 256.

(** [Hub.Register]: allocate a client record with an empty buffered channel
    and hand it to the loop, which adds it to the set. *)
Definition Register (st : State) : option (State * ptr) :=
  let client := fresh (dom (mem st)) in
  let st1 := {| clients := clients st;
                mem := <[client := {| Send := Chan.make sendBuffer |}]> (mem st) |} in
  st2 ← Run st1 (register client);
  Some (st2, client).

(** [Hub.Unregister] and [Hub.Broadcast] hand their argument to the loop. *)
Definition Unregister (st : State) (client : ptr) : option State :=
  Run st (unregister client).

Definition Broadcast (st : State) (msg : SyncResponse) : option State :=
  Run st (broadcast msg).

(** What the other goroutines of the service do to a client's channel
    while the hub is between two iterations: the stream's sender takes the
    oldest message, and [Sync] answers a state request by sending on the
    channel directly (a blocking send, which goes through once there is
    room). *)
Inductive env_step : State → State → Prop :=
  | env_recv st client c v ch' :
      mem st !! client = Some c →
      Chan.recv (Send c) = Some (v, ch') →
      env_step st (setSend st client ch')
  | env_send st client c resp ch' :
      mem st !! client = Some c →
      Chan.trySend (Send c) resp = Chan.Sent ch' →
      env_step st (setSend st client ch').

(** The states a hub goes through: from [NewHub], by registrations of newly
    made clients, by what the loop does with unregister requests and
    broadcasts, and by the traffic on the client channels. *)
Inductive reachable : State → Prop :=
  | reach_new : reachable NewHub
  | reach_Register st st' client :
      reachable st → Register st = Some (st', client) → reachable st'
  | reach_Unregister st st' client :
      reachable st → Unregister st client = Some st' → reachable st'
  | reach_Broadcast st st' msg :
      reachable st → Broadcast st msg = Some st' → reachable st'
  | reach_env st st' :
      reachable st → env_step st st' → reachable st'.

(** The hub of the repository's broadcast test: two clients registered on
    a new hub, nothing sent yet. *)
Definition oneClient : State :=
  Eval vm_compute in from_option fst NewHub (Register NewHub).

Definition twoClients : State :=
  Eval vm_compute in from_option fst NewHub (Register oneClient).

(** Every registered client has a record whose channel is open. *)
Definition registered_open (st : State) : Prop :=
  ∀ client, client ∈ clients st →
    ∃ c, mem st !! client = Some c ∧ Chan.closed (Send c) = false.

(** The message was the last one put on the client's queue. *)
Definition enqueued (st : State) (client : ptr) (msg : SyncResponse) : Prop :=
  ∃ c, mem st !! client = Some c ∧ list.last (Chan.buf (Send c)) = Some msg.

End Hub.

(** ** pkg/state/client/client.go *)

Module StateClient.

Import Statepb.

(** The capacity [NewClient] gives [sendCh]. *)
Definition sendChCap : nat := 1024.

(** The part of [Client] its producers touch: the outbound queue. Nothing
    in the package closes [sendCh], so the channel is its buffer. *)
Record Client : Type := mkClient {
  addr : string;
  sendCh : list SyncRequest
}.

(** [NewClient]. *)
Definition NewClient (address : string) : Client :=
  {| addr := address; sendCh := [] |}.

(** [select { case c.sendCh <- req: default: log.Printf(...) }]. *)
Definition enqueue (c : Client) (req : SyncRequest) : Client :=
  if (length (sendCh c) <? sendChCap)%nat
  then {| addr := addr c; sendCh := sendCh c ++ [req] |}
  else c.

(** [Client.SendDeltaUpdate]. *)
Definition SendDeltaUpdate (c : Client) (seed : Z) (deltas : list BucketDelta) : Client :=
  enqueue c (DeltaUpdate seed deltas).

(** [Client.RequestFullState]. *)
Definition RequestFullState (c : Client) (seed : Z) : Client :=
  enqueue c (StateRequest seed).

(** A client whose outbound queue is full. *)
Definition saturated : Client :=
  {| addr := "localhost:50051"; sendCh := replicate sendChCap (StateRequest 0) |}.

End StateClient.

(** ** pkg/request: what the tracker asks of a counting structure

    The tracker holds its two structures behind the interface
    [request.Tracker] and makes them through the package variable
    [newTrackerStructureWithClock]; the interface and the constructor are
    parameters here, so that what is proved of the tracker holds for every
    implementation. A structure
    reads its clock and its random source itself: they are part of its
    state [T]. What it shares with the tracker is the state client, which
    the report-delta callback installed by [createStructure] sends to; the
    methods therefore take the client's state and give it back. *)

Module Request.

Import Statepb.

(** Modelled from the spec: the declaration of [request.Outcome] is
    missing; an outcome is [Success] or [Failure]. *)
Inductive Outcome : Type := OutcomeSuccess | OutcomeFailure.

(** The callback type of [SetReportDeltaFunc]: [func(row, col uint64,
    delta float64, ts uint64)], acting on the client it has captured. *)
Definition ReportDeltaFunc : Type :=
  Z → Z → float → Z → StateClient.Client → StateClient.Client.

(** [request.Tracker], with what the tracker needs of [data.Structure]
    besides, over any type [T] of structures and any types of results. *)
Class Tracker (Config T RegisterRequestResult ReportOutcomeResult : Type) : Type := {
  GetID : T → Z;
  RegisterRequest :
    T → list Byte.byte → option StateClient.Client →
    T * RegisterRequestResult * option StateClient.Client;
  ReportOutcome :
    T → list Byte.byte → Outcome → option StateClient.Client →
    T * ReportOutcomeResult * option StateClient.Client;
  (** [SetReportDeltaFunc] and [UpdateBucket row col prob ts] of
      [data.Structure]; the identity for an implementation that is not one
      (the type assertion in the tracker fails). *)
  SetReportDeltaFunc : T → ReportDeltaFunc → T;
  UpdateBucket : T → Z → Z → float → Z → T;
  (** [newTrackerStructureWithClock cfg id includeStats clock]; [None] is a
      non-nil error. *)
  newTrackerStructureWithClock : Config → Z → bool → option T
}.

(** Modelled from the spec: [pkg/data] is missing from the sources; the
    spec gives a counting structure "an immutable 64-bit seed", fixed when
    it is built, and the tracker reads it back through [GetID] to match
    incoming updates. So a structure carries the seed it was made for,
    whether or not a callback is installed on it afterwards. *)
Class TrackerSeed (Config T R1 R2 : Type) `{!Tracker Config T R1 R2} : Prop := {
  GetID_new cfg id stats st :
    newTrackerStructureWithClock cfg id stats = Some st → GetID st = id;
  GetID_SetReportDeltaFunc st f :
    GetID (SetReportDeltaFunc st f) = GetID st
}.

End Request.

(** ** pkg/config and pkg/tracker *)

Module Tracker.

Import Statepb.

(** [config.FairnessTrackerConfig]. [RotationFrequency] is a
    [time.Duration], a signed count of nanoseconds. *)
Record FairnessTrackerConfig : Type := mkConfig {
  M : Z;
  L : Z;
  Pi : float;
  Pd : float;
  Lambda : float;
  RotationFrequency : Z;
  IncludeStats : bool;
  FinalProbabilityFunction : list float → float;
  StateServiceAddress : string
}.

(** The conversion [uint64(x)] of a signed 64-bit value, and the result of
    unsigned 64-bit arithmetic. *)
Definition uint64 (x : Z) : Z := (x mod 2 ^ 64)%Z.

(** [time.Duration.Milliseconds]: integer division, truncated. *)
Definition Milliseconds (d : Z) : Z := (d ÷ 1000000)%Z.

(** [uint64(now) / uint64(windowMs)]: the window a clock reading falls in.
    Division by zero is a run-time panic ([None]). *)
Definition windowAt (windowMs now : Z) : option Z :=
  if (uint64 windowMs =? 0)%Z then None
  else Some (uint64 now / uint64 windowMs)%Z.

(** Why building a tracker can fail. *)
Inductive failure : Type :=
  | NilConfig
  | DivideByZero
  | StructureError.

Section WithStructure.

Context {T RegisterRequestResult ReportOutcomeResult : Type}.
Context `{!Request.Tracker FairnessTrackerConfig T RegisterRequestResult ReportOutcomeResult}.

(** [FairnessTracker]: the configuration, the two structures, the state
    client ([None] in local-only mode) and the window length the rotation
    goroutine has captured. Ticker, context and locks have no state of
    their own in this model. *)
Record FairnessTracker : Type := mkFairnessTracker {
  trackerConfig : FairnessTrackerConfig;
  windowMs : Z;
  mainStructure : T;
  secondaryStructure : T;
  stateClient : option StateClient.Client
}.

(** [createStructure]. *)
Definition createStructure (cfg : FairnessTrackerConfig) (seed : Z)
    (client : option StateClient.Client) : option T :=
  match Request.newTrackerStructureWithClock cfg seed (IncludeStats cfg) with
  | None => None
  | Some st =>
      match client with
      | Some _ =>
          Some (Request.SetReportDeltaFunc st (λ row col delta ts c,
            StateClient.SendDeltaUpdate c seed
              [{| delta_RowId := row; delta_ColId := col; DeltaProb := delta;
                  delta_LastUpdateTimeMs := ts |}]))
      | None => Some st
      end
  end.

(** [ft.stateClient.RequestFullState(seed)] behind its nil check. *)
Definition requestFullState (client : option StateClient.Client) (seed : Z) :
    option StateClient.Client :=
  match client with
  | Some c => Some (StateClient.RequestFullState c seed)
  | None => None
  end.

(** [NewFairnessTrackerWithClockAndTicker], up to the start of the rotation
    goroutine; [now] is what the injected clock reads. *)
Definition NewFairnessTrackerWithClockAndTicker
    (trackerConfig : option FairnessTrackerConfig) (now : Z) :
    failure + FairnessTracker :=
  match trackerConfig with
  | None => inl NilConfig
  | Some cfg =>
      let client :=
        if decide (StateServiceAddress cfg = "")
        then None
        else Some (StateClient.NewClient (StateServiceAddress cfg)) in
      let windowMs := Milliseconds (RotationFrequency cfg) in
      match windowAt windowMs now with
      | None => inl DivideByZero
      | Some currentSeed =>
          let nextSeed := uint64 (currentSeed + 1) in
          match createStructure cfg currentSeed client with
          | None => inl StructureError
          | Some st1 =>
              match createStructure cfg nextSeed client with
              | None => inl StructureError
              | Some st2 =>
                  inr {| trackerConfig := cfg;
                         windowMs := windowMs;
                         mainStructure := st1;
                         secondaryStructure := st2;
                         stateClient :=
                           requestFullState (requestFullState client currentSeed)
                                            nextSeed |}
              end
          end
      end
  end.

(** The seed a rotation tick computes: [(uint64(now) / uint64(windowMs)) + 1]. *)
Definition rotationSeed (windowMs now : Z) : option Z :=
  match windowAt windowMs now with
  | None => None
  | Some w => Some (uint64 (w + 1))
  end.

(** The [case <-ticker.C()] branch of the rotation goroutine; [now] is what
    the clock reads when the tick is handled. A failing [createStructure]
    is logged and the tick skipped; the swap happens under the exclusive
    rotation lock. [None] is a panic. *)
Definition rotate (ft : FairnessTracker) (now : Z) : option FairnessTracker :=
  match rotationSeed (windowMs ft) now with
  | None => None
  | Some seed =>
      match createStructure (trackerConfig ft) seed (stateClient ft) with
      | None => Some ft
      | Some s =>
          Some {| trackerConfig := trackerConfig ft;
                  windowMs := windowMs ft;
                  mainStructure := secondaryStructure ft;
                  secondaryStructure := s;
                  stateClient := requestFullState (stateClient ft) seed |}
      end
  end.

(** A run of rotation ticks, each with its clock reading. *)
Fixpoint rotations (ft : FairnessTracker) (nows : list Z) : option FairnessTracker :=
  match nows with
  | [] => Some ft
  | now :: rest =>
      match rotate ft now with
      | None => None
      | Some ft' => rotations ft' rest
      end
  end.

(** [FairnessTracker.RegisterRequest]; runs under the shared rotation lock. *)
Definition RegisterRequest (ft : FairnessTracker) (clientIdentifier : list Byte.byte) :
    FairnessTracker * RegisterRequestResult :=
  let '(main, resp, client1) :=
    Request.RegisterRequest (mainStructure ft) clientIdentifier (stateClient ft) in
  let '(secondary, _, client2) :=
    Request.RegisterRequest (secondaryStructure ft) clientIdentifier client1 in
  ({| trackerConfig := trackerConfig ft;
      windowMs := windowMs ft;
      mainStructure := main;
      secondaryStructure := secondary;
      stateClient := client2 |}, resp).

(** [FairnessTracker.ReportOutcome]; runs under the shared rotation lock. *)
Definition ReportOutcome (ft : FairnessTracker) (clientIdentifier : list Byte.byte)
    (outcome : Request.Outcome) : FairnessTracker * ReportOutcomeResult :=
  let '(main, resp, client1) :=
    Request.ReportOutcome (mainStructure ft) clientIdentifier outcome (stateClient ft) in
  let '(secondary, _, client2) :=
    Request.ReportOutcome (secondaryStructure ft) clientIdentifier outcome client1 in
  ({| trackerConfig := trackerConfig ft;
      windowMs := windowMs ft;
      mainStructure := main;
      secondaryStructure := secondary;
      stateClient := client2 |}, resp).

(** [applyUpdate]: overwrite the local buckets with the received ones. *)
Definition applyUpdate (tracker : T) (buckets : list Bucket) : T :=
  foldl (λ s b, Request.UpdateBucket s (RowId b) (ColId b) (Prob b) (LastUpdateTimeMs b))
        tracker buckets.

(** [FairnessTracker.onStateUpdate], the callback the state client runs on
    every response; runs under the shared rotation lock. *)
Definition onStateUpdate (ft : FairnessTracker) (resp : SyncResponse) : FairnessTracker :=
  let seed := Seed resp in
  if decide (Request.GetID (mainStructure ft) = seed) then
    {| trackerConfig := trackerConfig ft;
       windowMs := windowMs ft;
       mainStructure := applyUpdate (mainStructure ft) (Buckets resp);
       secondaryStructure := secondaryStructure ft;
       stateClient := stateClient ft |}
  else if decide (Request.GetID (secondaryStructure ft) = seed) then
    {| trackerConfig := trackerConfig ft;
       windowMs := windowMs ft;
       mainStructure := mainStructure ft;
       secondaryStructure := applyUpdate (secondaryStructure ft) (Buckets resp);
       stateClient := stateClient ft |}
  else ft.

(** The client's sender goroutine takes the oldest request off [sendCh]. *)
Definition drained (ft : FairnessTracker) : FairnessTracker :=
  {| trackerConfig := trackerConfig ft;
     windowMs := windowMs ft;
     mainStructure := mainStructure ft;
     secondaryStructure := secondaryStructure ft;
     stateClient :=
       match stateClient ft with
       | Some c => Some {| StateClient.addr := StateClient.addr c;
                           StateClient.sendCh := tail (StateClient.sendCh c) |}
       | None => None
       end |}.

(** The states of a tracker: what the constructor returns, and from there
    whatever rotation ticks, calls of the two tracker methods, incoming
    state updates and the draining of the outbound queue lead to. *)
Inductive reachable : FairnessTracker → Prop :=
  | reach_new cfg now ft :
      NewFairnessTrackerWithClockAndTicker (Some cfg) now = inr ft → reachable ft
  | reach_rotate ft now ft' :
      reachable ft → rotate ft now = Some ft' → reachable ft'
  | reach_RegisterRequest ft clientIdentifier :
      reachable ft → reachable (RegisterRequest ft clientIdentifier).1
  | reach_ReportOutcome ft clientIdentifier outcome :
      reachable ft → reachable (ReportOutcome ft clientIdentifier outcome).1
  | reach_onStateUpdate ft resp :
      reachable ft → reachable (onStateUpdate ft resp)
  | reach_drained ft :
      reachable ft → reachable (drained ft).

(** The clock readings of a construction and of the ticks after it fall in
    strictly later and later windows. *)
Definition advancing (windowMs : Z) (nows : list Z) : Prop :=
  Sorted Z.lt ((λ now, uint64 now / uint64 windowMs)%Z <$> nows).

(** The seeds of the two structures, before wrap-around, are two increasing
    numbers no further than the last window seen plus one. *)
Definition seeds_ordered (ft : FairnessTracker) (q : Z) : Prop :=
  ∃ a b : Z,
    (0 ≤ a < b)%Z ∧ (b ≤ q + 1)%Z ∧ (q < 2 ^ 64)%Z ∧ (b - a < 2 ^ 64)%Z ∧
    Request.GetID (mainStructure ft) = uint64 a ∧
    Request.GetID (secondaryStructure ft) = uint64 b.

(** The seeds the two current structures answer to. *)
Definition seeds (ft : FairnessTracker) : Z * Z :=
  (Request.GetID (mainStructure ft), Request.GetID (secondaryStructure ft)).

End WithStructure.

Arguments FairnessTracker T : clear implicits.

End Tracker.

(** ** A stand-in counting structure *)

Module Standin.

Import Statepb.

Inductive Call : Type :=
  | Registered (clientIdentifier : list Byte.byte)
  | Reported (clientIdentifier : list Byte.byte) (outcome : Request.Outcome)
  | Updated (row col : Z) (prob : float) (ts : Z).

(** Modelled from the spec: [pkg/data] (the counting structure, its
    constructor [NewStructureWithClock], [GetID] and [SetReportDeltaFunc])
    is missing from the sources. This stand-in keeps what the capability
    set [{RegisterRequest, ReportOutcome, GetID}] of the spec fixes: an
    immutable seed given at construction, and a reaction to the two calls.
    It records the calls it receives, answers each with its seed and the
    number of calls seen before, and on a reported outcome hands one delta
    ([+Pi] on failure, [-Pd] on success) to its report-delta callback. *)
Record Structure : Type := mkStructure {
  id : Z;
  pi : float;
  pd : float;
  reportDelta : option Request.ReportDeltaFunc;
  calls : list Call
}.

Definition record (st : Structure) (c : Call) : Structure :=
  {| id := id st; pi := pi st; pd := pd st; reportDelta := reportDelta st;
     calls := calls st ++ [c] |}.

Definition emit (st : Structure) (delta : float)
    (client : option StateClient.Client) : option StateClient.Client :=
  match reportDelta st, client with
  | Some f, Some c => Some (f 0%Z 0%Z delta 0%Z c)
  | _, _ => client
  end.

#[export] Instance standin_tracker :
    Request.Tracker Tracker.FairnessTrackerConfig Structure (Z * nat) (Z * nat) := {|
  Request.GetID := id;
  Request.RegisterRequest st cid client :=
    (record st (Registered cid), (id st, length (calls st)), client);
  Request.ReportOutcome st cid outcome client :=
    (record st (Reported cid outcome), (id st, length (calls st)),
     emit st (match outcome with
              | Request.OutcomeFailure => pi st
              | Request.OutcomeSuccess => PrimFloat.opp (pd st)
              end) client);
  Request.SetReportDeltaFunc st f :=
    {| id := id st; pi := pi st; pd := pd st; reportDelta := Some f;
       calls := calls st |};
  Request.UpdateBucket st row col prob ts := record st (Updated row col prob ts);
  Request.newTrackerStructureWithClock cfg seed _ :=
    if ((0 <? Tracker.M cfg) && (0 <? Tracker.L cfg))%Z
    then Some {| id := seed; pi := Tracker.Pi cfg; pd := Tracker.Pd cfg;
                 reportDelta := None; calls := [] |}
    else None
|}.

(** The final-probability function of the repository's integration test:
    the largest of the row probabilities. *)
Definition maxProbability (probs : list float) : float :=
  foldl (λ max p, if PrimFloat.ltb max p then p else max) 0%float probs.

(** A configuration in the style of that test, with a window of 100 ms and
    no state service. *)
Definition localConfig : Tracker.FairnessTrackerConfig :=
  {| Tracker.M := 10; Tracker.L := 2;
     Tracker.Pi := 0.1%float; Tracker.Pd := 0.05%float;
     Tracker.Lambda := 0%float;
     Tracker.RotationFrequency := 100000000;
     Tracker.IncludeStats := true;
     Tracker.FinalProbabilityFunction := maxProbability;
     Tracker.StateServiceAddress := "" |}.

(** The same with a state service attached. *)
Definition sharedConfig : Tracker.FairnessTrackerConfig :=
  {| Tracker.M := 10; Tracker.L := 2;
     Tracker.Pi := 0.1%float; Tracker.Pd := 0.05%float;
     Tracker.Lambda := 0%float;
     Tracker.RotationFrequency := 100000000;
     Tracker.IncludeStats := true;
     Tracker.FinalProbabilityFunction := maxProbability;
     Tracker.StateServiceAddress := "localhost:50051" |}.

(** The tracker [NewFairnessTrackerWithClockAndTicker] builds from
    [localConfig] when the clock reads 1000 ms: seeds 10 and 11. *)
Definition localTracker : Tracker.FairnessTracker Structure :=
  {| Tracker.trackerConfig := localConfig;
     Tracker.windowMs := 100;
     Tracker.mainStructure :=
       {| id := 10; pi := 0.1%float; pd := 0.05%float; reportDelta := None; calls := [] |};
     Tracker.secondaryStructure :=
       {| id := 11; pi := 0.1%float; pd := 0.05%float; reportDelta := None; calls := [] |};
     Tracker.stateClient := None |}.

End Standin.

(** ** The store over time: runs of calls, the periodic eviction *)

Module StoreRun.

Import Statepb Store.

(** What happens to the buckets of a store during its life: [ApplyDelta]
    calls from the streams and [EvictBefore] calls from the eviction task,
    each under the write lock. *)
Inductive op : Type :=
  | Apply (d : Delta)
  | Evict (seed : Z).

Definition step (s : buckets) (o : op) : buckets :=
  match o with
  | Apply d => (ApplyDelta s (d_seed d) (d_row d) (d_col d) (d_prob d) (d_ts d)).1
  | Evict seed => EvictBefore s seed
  end.

Definition run (s : buckets) (ops : list op) : buckets := foldl step s ops.

(** The delta of an [ApplyDelta] call is a number (not NaN). *)
Definition numeric (o : op) : bool :=
  match o with
  | Apply d => negb (PrimFloat.is_nan (d_prob d))
  | Evict _ => true
  end.

(** Every bucket sits under the row and column it names. *)
Definition well_keyed (s : buckets) : Prop :=
  ∀ seed r c b, bucketAt s seed r c = Some b → RowId b = r ∧ ColId b = c.

(** Every stored probability is in [0,1]. *)
Definition probabilities_in_unit (s : buckets) : Prop :=
  ∀ seed r c b, bucketAt s seed r c = Some b → in_unit (Prob b) = true.

(** The address a bucket names. *)
Definition address (b : Bucket) : Z * Z := (RowId b, ColId b).

(** The newest timestamp among the calls of a run that address
    [(seed, rowID, colID)], starting from [t0]. *)
Definition latest (seed rowID colID : Z) (t0 : Z) (ds : list Delta) : Z :=
  foldl (λ t d,
           if decide (d_seed d = seed ∧ d_row d = rowID ∧ d_col d = colID)
           then Z.max t (d_ts d) else t) t0 ds.

(** [time.Time.UnixMilli] of a time given in nanoseconds since the epoch
    (rounded down, also before the epoch). *)
Definition UnixMilli (t : Z) : Z := (t / 1000000)%Z.

(** [InMemoryStore.runEviction]: [windowSize] and [evictionTTL] are the
    store's durations in nanoseconds, [now] is what [time.Now()] returns, in
    nanoseconds since the epoch. Division by a zero window is a panic. *)
Definition runEviction (windowSize evictionTTL : Z) (now : Z) (s : buckets) :
    option buckets :=
  let cutoffTime := (now - evictionTTL)%Z in
  let window := Tracker.uint64 (Tracker.Milliseconds windowSize) in
  if (window =? 0)%Z then None
  else Some (EvictBefore s (Tracker.uint64 (UnixMilli cutoffTime) / window)%Z).

(** A specification float that is a number and not an infinity. *)
Definition is_finite_SF (x : spec_float) : bool :=
  match x with S754_zero _ | S754_finite _ _ _ => true | _ => false end.

(** A store after some traffic: two buckets under seed 7, one under seed 9,
    then seeds below 8 evicted and a late delta for seed 7. *)
Definition sampleRun : list op :=
  [Apply (mkDelta 7 0 3 0.4 100); Apply (mkDelta 7 1 5 (-0.2) 120);
   Apply (mkDelta 9 0 3 2.5 300); Evict 8; Apply (mkDelta 7 0 3 0.1 90)].

End StoreRun.

(** ** The hub over time *)

Module HubRun.

Import Statepb Hub.

(** A run of broadcasts, handled by the loop one after the other. *)
Fixpoint broadcastAll (st : State) (msgs : list SyncResponse) : option State :=
  match msgs with
  | [] => Some st
  | msg :: rest => st' ← Broadcast st msg; broadcastAll st' rest
  end.

(** Every client record has the buffer size of [Register], holds no more
    messages than that, and is open exactly while its client is registered;
    every registered client has a record. *)
Definition coherent (st : State) : Prop :=
  (∀ client, client ∈ clients st → is_Some (mem st !! client)) ∧
  (∀ client c, mem st !! client = Some c →
     Chan.cap (Send c) = sendBuffer ∧
     length (Chan.buf (Send c)) ≤ sendBuffer ∧
     (Chan.closed (Send c) = false ↔ client ∈ clients st)).

End HubRun.

(** ** The state client's producers over time *)

Module ClientRun.

Import Statepb StateClient.

(** A producer call for a request: [SendDeltaUpdate] for a delta update,
    [RequestFullState] for a state request. *)
Definition offer (c : Client) (req : SyncRequest) : Client :=
  match req with
  | DeltaUpdate seed deltas => SendDeltaUpdate c seed deltas
  | StateRequest seed => RequestFullState c seed
  end.

(** A burst of producer calls with no request taken off the queue in
    between. *)
Definition offerAll (c : Client) (reqs : list SyncRequest) : Client :=
  foldl offer c reqs.

End ClientRun.

(** ** Ticks that follow the windows *)

Module TrackerRun.

Import Statepb Tracker.

Section WithStructure.

Context {T RegisterRequestResult ReportOutcomeResult : Type}.
Context `{!Request.Tracker FairnessTrackerConfig T RegisterRequestResult ReportOutcomeResult}.

(** Each clock reading of the run falls in the window right after the one
    before it, [q] being the window of the reading before the first. *)
Fixpoint stepping (windowMs q : Z) (nows : list Z) : Prop :=
  match nows with
  | [] => True
  | now :: rest =>
      windowAt windowMs now = Some (q + 1)%Z ∧ stepping windowMs (q + 1) rest
  end.

(** The constructor of structures accepts the configuration, whatever the
    seed. *)
Definition never_fails (cfg : FairnessTrackerConfig) : Prop :=
  ∀ id, is_Some (Request.newTrackerStructureWithClock cfg id (IncludeStats cfg)).

End WithStructure.

End TrackerRun.

(** ** The state service: [Service.Sync]

    One stream of the service. The hub and the store are shared with the
    other streams; what is modelled is what one stream's handler does to
    them for one incoming request, with no other stream's request handled
    in between. *)

Module StateService.

Import Statepb.

(** [Service]: the store and the hub it was made with. *)
Record Service : Type := mkService {
  store : Store.buckets;
  hub : Hub.State
}.

(** How handling a request ends: the loop goes on, the handler returns,
    the handler waits on a full queue, or the process panics. *)
Inductive outcome : Type :=
  | Continue (sv : Service)
  | Return (sv : Service)
  | Blocked
  | Panicked.

(** The body of [for _, delta := range deltaUpdate.Deltas]: apply the delta,
    broadcast the bucket it returns. [ApplyDelta] never returns an error.
    [None] is a panic. *)
Definition applyAndBroadcast (seed : Z) (sv : Service) (delta : BucketDelta) :
    option Service :=
  let '(s', bucket) :=
    Store.ApplyDelta (store sv) seed (delta_RowId delta) (delta_ColId delta)
      (DeltaProb delta) (delta_LastUpdateTimeMs delta) in
  match Hub.Broadcast (hub sv) {| Seed := seed; Buckets := [bucket] |} with
  | Some h' => Some {| store := s'; hub := h' |}
  | None => None
  end.

(** The [*statepb.SyncRequest_DeltaUpdate] case. *)
Fixpoint handleDeltaUpdate (seed : Z) (deltas : list BucketDelta) (sv : Service) :
    option Service :=
  match deltas with
  | [] => Some sv
  | delta :: rest =>
      match applyAndBroadcast seed sv delta with
      | Some sv' => handleDeltaUpdate seed rest sv'
      | None => None
      end
  end.

(** The [*statepb.SyncRequest_StateRequest] case: the full state of the
    seed goes to this client's channel by
    [select { case client.Send <- resp: case <-stream.Context().Done():
    return ... }]. [ctxDone] says whether the stream's context is done;
    when both cases are ready Go picks one at random, [pickSend] says
    whether it is the send. A send on a closed channel is ready, and
    panics. *)
Definition handleStateRequest (sv : Service) (client : Hub.ptr) (seed : Z)
    (ctxDone pickSend : bool) : outcome :=
  let resp := {| Seed := seed; Buckets := Store.GetSeed (store sv) seed |} in
  match Hub.mem (hub sv) !! client with
  | None => Panicked
  | Some c =>
      match Chan.trySend (Hub.Send c) resp with
      | Chan.Sent ch' =>
          if ctxDone && negb pickSend then Return sv
          else Continue {| store := store sv; hub := Hub.setSend (hub sv) client ch' |}
      | Chan.SendOnClosed =>
          if ctxDone && negb pickSend then Return sv else Panicked
      | Chan.NotReady =>
          if ctxDone then Return sv else Blocked
      end
  end.

(** The [switch] on the request's payload; [None] is a request of no known
    type, which is logged and skipped. *)
Definition handle (sv : Service) (client : Hub.ptr) (req : option SyncRequest)
    (ctxDone pickSend : bool) : outcome :=
  match req with
  | Some (DeltaUpdate seed deltas) =>
      match handleDeltaUpdate seed deltas sv with
      | Some sv' => Continue sv'
      | None => Panicked
      end
  | Some (StateRequest seed) => handleStateRequest sv client seed ctxDone pickSend
  | None => Continue sv
  end.

(** The receive loop while the stream's context is live: the requests the
    stream delivers, then EOF or a read error, on which the handler
    returns. *)
Fixpoint serve (sv : Service) (client : Hub.ptr) (reqs : list (option SyncRequest)) :
    outcome :=
  match reqs with
  | [] => Return sv
  | req :: rest =>
      match handle sv client req false false with
      | Continue sv' => serve sv' client rest
      | o => o
      end
  end.

(** [Service.Sync]: register with the hub, serve the stream, and on return
    run the deferred [Unregister]. *)
Definition Sync (sv : Service) (reqs : list (option SyncRequest)) : outcome :=
  match Hub.Register (hub sv) with
  | None => Panicked
  | Some (h, client) =>
      match serve {| store := store sv; hub := h |} client reqs with
      | Return sv' =>
          match Hub.Unregister (hub sv') client with
          | Some h' => Return {| store := store sv'; hub := h' |}
          | None => Panicked
          end
      | Continue sv' => Continue sv'
      | Blocked => Blocked
      | Panicked => Panicked
      end
  end.

(** The responses a delta update makes the hub broadcast: one per returned
    bucket. *)
Definition responses (seed : Z) (bs : list Bucket) : list SyncResponse :=
  (λ b, {| Seed := seed; Buckets := [b] |}) <$> bs.

(** The [ApplyDelta] calls a delta update stands for. *)
Definition calls (seed : Z) (deltas : list BucketDelta) : list Store.Delta :=
  (λ d, Store.mkDelta seed (delta_RowId d) (delta_ColId d) (DeltaProb d)
          (delta_LastUpdateTimeMs d)) <$> deltas.

End StateService.

(** ** Streams of the state service *)

Module ServiceRun.

Import Statepb Hub HubRun StateService.

(** A stream that submits deltas only: no request asks for a full state. *)
Definition onlyDeltas (reqs : list (option SyncRequest)) : bool :=
  forallb (λ req, match req with Some (StateRequest _) => false | _ => true end) reqs.

(** The [ApplyDelta] calls the requests of a stream stand for, in order. *)
Definition allCalls (reqs : list (option SyncRequest)) : list Store.Delta :=
  req ← reqs;
  match req with
  | Some (DeltaUpdate seed deltas) => calls seed deltas
  | _ => []
  end.

(** A hub whose one client never read: 257 broadcasts after its
    registration. *)
Definition overrun : State :=
  Eval vm_compute in
    from_option id NewHub (broadcastAll oneClient (replicate 257 {| Seed := 7; Buckets := [] |})).

End ServiceRun.

(** ** pkg/service and pkg/transport/http *)

Module Transport.

Import Statepb.

(** [service.RegisterRequest], [service.RegisterResponse] and
    [service.ReportRequest]. *)
Record RegisterRequest : Type := mkRegisterRequest {
  ClientID : string
}.

Record RegisterResponse (Stats : Type) : Type := mkRegisterResponse {
  ShouldThrottle : bool;
  Stats_ : Stats
}.
Arguments mkRegisterResponse {Stats} _ _.
Arguments ShouldThrottle {Stats} _.
Arguments Stats_ {Stats} _.

Record ReportRequest : Type := mkReportRequest {
  report_ClientID : string;
  Outcome : string
}.

(** The errors a [service.Service] may return: [ErrInvalidOutcome], which
    the handler tells apart, and any other. *)
Inductive error : Type := ErrInvalidOutcome | OtherError.

(** The status codes the handler writes. *)
Definition StatusOK : Z := 200.
Definition StatusBadRequest : Z := 400.
Definition StatusMethodNotAllowed : Z := 405.
Definition StatusInternalServerError : Z := 500.

(** The [switch req.Outcome] of [fairService.Report]. *)
Definition parseOutcome (s : string) : option Request.Outcome :=
  if decide (s = "success") then Some Request.OutcomeSuccess
  else if decide (s = "failure") then Some Request.OutcomeFailure
  else None.

Section WithStructure.

Context {T RegisterRequestResult ReportOutcomeResult Stats : Type}.
Context `{!Request.Tracker Tracker.FairnessTrackerConfig T
            RegisterRequestResult ReportOutcomeResult}.

(** The two fields of [request.RegisterRequestResult] the service reads. *)
Variable result_ShouldThrottle : RegisterRequestResult → bool.
Variable result_ResultStats : RegisterRequestResult → Stats.

(** [fairService.Register]; its error is always [nil]. *)
Definition Register (t : Tracker.FairnessTracker T) (req : RegisterRequest) :
    Tracker.FairnessTracker T * (RegisterResponse Stats * option error) :=
  let '(t', result) :=
    Tracker.RegisterRequest t (String.list_byte_of_string (ClientID req)) in
  (t', ({| ShouldThrottle := result_ShouldThrottle result;
           Stats_ := result_ResultStats result |}, None)).

(** [fairService.Report]. *)
Definition Report (t : Tracker.FairnessTracker T) (req : ReportRequest) :
    Tracker.FairnessTracker T * option error :=
  match parseOutcome (Outcome req) with
  | Some outcome =>
      ((Tracker.ReportOutcome t (String.list_byte_of_string (report_ClientID req))
          outcome).1, None)
  | None => (t, Some ErrInvalidOutcome)
  end.

(** The handler of [/register]: [method] is [r.Method], [body] is what the
    JSON decoder makes of the request body ([None] when it fails). The
    answer is the status code and, on success, the encoded response. *)
Definition handleRegister (t : Tracker.FairnessTracker T) (method : string)
    (body : option RegisterRequest) :
    Tracker.FairnessTracker T * (Z * option (RegisterResponse Stats)) :=
  if decide (method = "POST") then
    match body with
    | None => (t, (StatusBadRequest, None))
    | Some req =>
        if decide (ClientID req = "") then (t, (StatusBadRequest, None))
        else
          let '(t', (resp, err)) := Register t req in
          match err with
          | Some _ => (t', (StatusInternalServerError, None))
          | None => (t', (StatusOK, Some resp))
          end
    end
  else (t, (StatusMethodNotAllowed, None)).

(** The handler of [/report]. *)
Definition handleReport (t : Tracker.FairnessTracker T) (method : string)
    (body : option ReportRequest) : Tracker.FairnessTracker T * Z :=
  if decide (method = "POST") then
    match body with
    | None => (t, StatusBadRequest)
    | Some req =>
        if decide (report_ClientID req = "") then (t, StatusBadRequest)
        else
          let '(t', err) := Report t req in
          match err with
          | Some ErrInvalidOutcome => (t', StatusBadRequest)
          | Some OtherError => (t', StatusInternalServerError)
          | None => (t', StatusOK)
          end
    end
  else (t, StatusMethodNotAllowed).

End WithStructure.

End Transport.

(** * Properties *)

(** ** Binary64 comparisons and the clamp *)

Section Float64.

Import Store.

(** Swapping the arguments of an IEEE comparison mirrors its outcome. *)
Lemma SFcompare_antisym x y :
  SFcompare y x = CompOpp <$> SFcompare x y.
Proof.
  destruct x as [sx|sx| |sx mx ex], y as [sy|sy| |sy my ey]; simpl; try done;
    try (by destruct sx); try (by destruct sy); try (by destruct sx, sy).
  destruct sx, sy; simpl; try done.
  - rewrite (Z.compare_antisym ey ex). destruct (ey ?= ex)%Z; simpl; try done.
    f_equal. rewrite (Pos.compare_cont_antisym _ _ Eq). by rewrite CompOpp_involutive.
  - rewrite (Z.compare_antisym ey ex). destruct (ey ?= ex)%Z; simpl; try done.
    f_equal. by rewrite (Pos.compare_cont_antisym _ _ Eq).
Qed.

(** Only NaN is unordered. *)
Lemma SFcompare_None x y :
  SFcompare x y = None → x = S754_nan ∨ y = S754_nan.
Proof.
  destruct x as [sx|sx| |sx mx ex], y as [sy|sy| |sy my ey]; simpl; auto; try discriminate.
Qed.

(** A float is NaN exactly when its specification value is. *)
Lemma is_nan_Prim2SF p : PrimFloat.is_nan p = false ↔ Prim2SF p ≠ S754_nan.
Proof.
  unfold PrimFloat.is_nan. rewrite FloatAxioms.eqb_spec. unfold SFeqb.
  split.
  - intros H E. rewrite E in H. discriminate.
  - intros H. destruct (SFcompare (Prim2SF p) (Prim2SF p)) as [c|] eqn:E.
    + pose proof (SFcompare_antisym (Prim2SF p) (Prim2SF p)) as A. rewrite E in A.
      simpl in A. destruct c; try done; inversion A.
    + apply SFcompare_None in E. tauto.
Qed.

(** Between two numbers, [not (x < y)] is [y <= x]. *)
Lemma ltb_false_leb x y :
  PrimFloat.is_nan x = false → PrimFloat.is_nan y = false →
  PrimFloat.ltb x y = false → PrimFloat.leb y x = true.
Proof.
  rewrite !is_nan_Prim2SF, ltb_spec, leb_spec. unfold SFltb, SFleb.
  intros Hx Hy. rewrite (SFcompare_antisym (Prim2SF x) (Prim2SF y)).
  destruct (SFcompare (Prim2SF x) (Prim2SF y)) as [[]|] eqn:E; simpl; try done.
  apply SFcompare_None in E. tauto.
Qed.

(** The clamp of a number lies in the unit interval. *)
Lemma clamp_in_unit p : PrimFloat.is_nan p = false → in_unit (clamp p) = true.
Proof.
  intros Hp. unfold clamp.
  destruct (PrimFloat.ltb p 0) eqn:H0; [reflexivity|].
  destruct (PrimFloat.ltb 1 p) eqn:H1; [reflexivity|].
  unfold in_unit. rewrite (ltb_false_leb p 0), (ltb_false_leb 1 p); auto.
Qed.

(** NaN is not in the unit interval. *)
Lemma in_unit_not_nan p : in_unit p = true → PrimFloat.is_nan p = false.
Proof.
  unfold in_unit. intros [H _]%andb_prop. apply is_nan_Prim2SF. intros E.
  rewrite leb_spec, E in H. discriminate.
Qed.

(** NaN passes through the clamp: both of its comparisons are false. *)
Lemma clamp_nan p : PrimFloat.is_nan p = true → clamp p = p.
Proof.
  intros Hp. unfold clamp.
  assert (E : Prim2SF p = S754_nan).
  { destruct (Prim2SF p) eqn:E; auto; exfalso;
    assert (PrimFloat.is_nan p = false) by (apply is_nan_Prim2SF; congruence); congruence. }
  rewrite !ltb_spec, E. reflexivity.
Qed.

(** [0.0 + d] is [d], bit for bit, unless [d] is the negative zero. *)
Lemma add_zero_l d : Prim2SF d ≠ S754_zero true → PrimFloat.add 0 d = d.
Proof.
  intros H. apply Prim2SF_inj. rewrite add_spec.
  change (Prim2SF 0) with (S754_zero false).
  destruct (Prim2SF d) as [[]| | |]; try done.
Qed.

End Float64.

(** ** The aggregation store *)

Section StoreProperties.

Import Statepb Store.

(** The copy the store returns is the bucket it copies. *)
Lemma copyBucket_id b : copyBucket b = b.
Proof. by destruct b. Qed.

(** Reading any address after [ApplyDelta]: the returned bucket at the
    address written, the old content everywhere else. *)
Lemma bucketAt_ApplyDelta s seed r c d ts seed' r' c' :
  bucketAt (ApplyDelta s seed r c d ts).1 seed' r' c' =
  if decide (seed' = seed ∧ r' = r ∧ c' = c)
  then Some (ApplyDelta s seed r c d ts).2
  else bucketAt s seed' r' c'.
Proof.
  unfold bucketAt, colsOf, rowsOf, ApplyDelta. cbn [fst snd].
  rewrite copyBucket_id.
  destruct (decide (seed' = seed)) as [->|Hs].
  - rewrite lookup_insert_eq. cbn [from_option id].
    destruct (decide (r' = r)) as [->|Hr].
    + rewrite lookup_insert_eq. cbn [from_option id].
      destruct (decide (c' = c)) as [->|Hc].
      * rewrite lookup_insert_eq. by rewrite decide_True.
      * rewrite lookup_insert_ne by done. by rewrite decide_False by (intros (?&?&?); congruence).
    + rewrite lookup_insert_ne by done. by rewrite decide_False by (intros (?&?&?); congruence).
  - rewrite lookup_insert_ne by done. by rewrite decide_False by (intros (?&?&?); congruence).
Qed.

(** The bucket [ApplyDelta] returns, field by field. *)
Lemma ApplyDelta_returned s seed r c d ts :
  (ApplyDelta s seed r c d ts).2 =
  {| RowId := from_option RowId r (bucketAt s seed r c);
     ColId := from_option ColId c (bucketAt s seed r c);
     Prob := clamp (PrimFloat.add (oldProb s seed r c) d);
     LastUpdateTimeMs := Z.max (oldTime s seed r c) ts |}.
Proof.
  unfold ApplyDelta, oldProb, oldTime, probAt, timeAt, bucketAt. cbn [snd].
  rewrite copyBucket_id. unfold maxTimestamp.
  destruct (colsOf s seed r !! c) as [b|]; cbn;
    (case_match; [rewrite Z.ltb_lt in *|rewrite Z.ltb_ge in *]; f_equal; lia).
Qed.

(** The bucket returned is the bucket stored. *)
Lemma bucketAt_ApplyDelta_same s seed r c d ts :
  bucketAt (ApplyDelta s seed r c d ts).1 seed r c = Some (ApplyDelta s seed r c d ts).2.
Proof. rewrite bucketAt_ApplyDelta. by rewrite decide_True. Qed.

(** The stored probability is the clamped sum. *)
Lemma probAt_ApplyDelta s seed r c d ts :
  probAt (ApplyDelta s seed r c d ts).1 seed r c =
  Some (clamp (PrimFloat.add (oldProb s seed r c) d)).
Proof. unfold probAt. by rewrite bucketAt_ApplyDelta_same, ApplyDelta_returned. Qed.

(** The stored timestamp is the larger of the old one and the new one. *)
Lemma timeAt_ApplyDelta s seed r c d ts :
  timeAt (ApplyDelta s seed r c d ts).1 seed r c = Some (Z.max (oldTime s seed r c) ts).
Proof. unfold timeAt. by rewrite bucketAt_ApplyDelta_same, ApplyDelta_returned. Qed.

(** An absent address reads as probability 0 ... *)
Lemma oldProb_absent s seed r c : bucketAt s seed r c = None → oldProb s seed r c = 0%float.
Proof. unfold oldProb, probAt. by intros ->. Qed.

(** ... and as timestamp 0. *)
Lemma oldTime_absent s seed r c : bucketAt s seed r c = None → oldTime s seed r c = 0%Z.
Proof. unfold oldTime, timeAt. by intros ->. Qed.

(** The probability read back after a write. *)
Lemma oldProb_ApplyDelta_same s seed r c d ts :
  oldProb (ApplyDelta s seed r c d ts).1 seed r c =
  clamp (PrimFloat.add (oldProb s seed r c) d).
Proof. unfold oldProb at 1. by rewrite probAt_ApplyDelta. Qed.

(** [GetSeed] lists exactly the buckets stored under the seed. *)
Lemma elem_of_GetSeed s seed b :
  b ∈ GetSeed s seed ↔ ∃ r c, bucketAt s seed r c = Some b.
Proof.
  unfold GetSeed, bucketAt, colsOf, rowsOf. destruct (s !! seed) as [seedMap|] eqn:E; cbn [from_option id].
  - rewrite list_elem_of_bind. split.
    + intros (rowMap & Hb & Hr).
      apply list_elem_of_fmap in Hr as [[r rm] [-> Hr]].
      apply list_elem_of_fmap in Hb as [b' [-> Hb]].
      apply list_elem_of_fmap in Hb as [[c b''] [-> Hb]].
      apply elem_of_map_to_list in Hr, Hb. exists r, c. cbn in *.
      rewrite Hr. cbn. by rewrite copyBucket_id.
    + intros (r & c & H). destruct (seedMap !! r) as [rowMap|] eqn:Er; cbn in H; [|by rewrite lookup_empty in H].
      exists rowMap. split.
      * apply list_elem_of_fmap. exists b. split; [by rewrite copyBucket_id|].
        apply list_elem_of_fmap. exists (c, b). split; [done|]. by apply elem_of_map_to_list.
      * apply list_elem_of_fmap. exists (r, rowMap). split; [done|]. by apply elem_of_map_to_list.
  - split; [by intros ?%elem_of_nil|]. intros (r & c & H). by rewrite !lookup_empty in H.
Qed.

(** Any sum with NaN is NaN. *)
Lemma add_nan_r x : PrimFloat.add x nan = nan.
Proof.
  apply Prim2SF_inj. rewrite add_spec.
  change (Prim2SF nan) with S754_nan.
  by destruct (Prim2SF x) as [[]|[]| |].
Qed.

(** C1: the code at the failing input. Whatever the store holds, a delta of
    NaN makes [ApplyDelta] return and store the probability NaN: the sum is
    NaN, neither comparison of the clamp is true of it, and NaN is not in
    [0,1]. *)
Theorem ApplyDelta_NaN_is_not_clamped (s : buckets) (seed r c ts : Z) :
  Prob (ApplyDelta s seed r c nan ts).2 = nan ∧
  in_unit (Prob (ApplyDelta s seed r c nan ts).2) = false ∧
  probAt (ApplyDelta s seed r c nan ts).1 seed r c = Some nan.
Proof.
  rewrite probAt_ApplyDelta, ApplyDelta_returned. cbn [Prob].
  rewrite add_nan_r. repeat split.
Qed.

(** Whenever the sum is a number, the returned and the stored probability
    are in [0,1]. *)
Lemma ApplyDelta_in_unit s seed r c d ts :
  PrimFloat.is_nan (PrimFloat.add (oldProb s seed r c) d) = false →
  in_unit (Prob (ApplyDelta s seed r c d ts).2) = true ∧
  in_unit (oldProb (ApplyDelta s seed r c d ts).1 seed r c) = true.
Proof.
  intros H. rewrite ApplyDelta_returned, oldProb_ApplyDelta_same. cbn [Prob].
  split; by apply clamp_in_unit.
Qed.

(** The clamp scenario of the specification, on a new address of any
    store: +0.7 then +0.5 returns 1.0, then -1.5 returns 0.0. *)
Lemma store_clamps s seed r c t1 t2 t3 :
  bucketAt s seed r c = None →
  let s1 := (ApplyDelta s seed r c 0.7 t1).1 in
  let s2 := (ApplyDelta s1 seed r c 0.5 t2).1 in
  Prob (ApplyDelta s1 seed r c 0.5 t2).2 = 1%float ∧
  Prob (ApplyDelta s2 seed r c (-1.5) t3).2 = 0%float.
Proof.
  intros Habs s1 s2. subst s1 s2.
  rewrite !ApplyDelta_returned. cbn [Prob].
  rewrite !oldProb_ApplyDelta_same, oldProb_absent by done. split; reflexivity.
Qed.

(** The timestamp of any address after [ApplyDelta]. *)
Lemma oldTime_ApplyDelta s seed r c d ts seed' r' c' :
  oldTime (ApplyDelta s seed r c d ts).1 seed' r' c' =
  if decide (seed' = seed ∧ r' = r ∧ c' = c)
  then Z.max (oldTime s seed r c) ts
  else oldTime s seed' r' c'.
Proof.
  unfold oldTime at 1. unfold timeAt. rewrite bucketAt_ApplyDelta.
  case_decide; [|done]. by rewrite ApplyDelta_returned.
Qed.

(** One [ApplyDelta] lowers the timestamp of no address. *)
Lemma oldTime_ApplyDelta_le s seed r c d ts seed' r' c' :
  (oldTime s seed' r' c' ≤ oldTime (ApplyDelta s seed r c d ts).1 seed' r' c')%Z.
Proof.
  rewrite oldTime_ApplyDelta. case_decide as H; [|lia].
  destruct H as (-> & -> & ->). lia.
Qed.

(** A run of calls can be cut in two. *)
Lemma applyAll_app s ds1 ds2 :
  (applyAll s (ds1 ++ ds2)).1 = (applyAll (applyAll s ds1).1 ds2).1.
Proof.
  revert s. induction ds1 as [|d ds1 IH]; intros s; [done|].
  cbn [applyAll app]. destruct (ApplyDelta _ _ _ _ _ _) as [s1 b] eqn:E1.
  specialize (IH s1).
  destruct (applyAll s1 (ds1 ++ ds2)) as [s2 bs], (applyAll s1 ds1) as [s3 bs3].
  cbn [fst] in *. done.
Qed.

(** No run of [ApplyDelta] calls lowers the timestamp of an address. *)
Lemma oldTime_applyAll_le s ds seed r c :
  (oldTime s seed r c ≤ oldTime (applyAll s ds).1 seed r c)%Z.
Proof.
  revert s. induction ds as [|d ds IH]; intros s; [done|].
  cbn [applyAll]. destruct (ApplyDelta _ _ _ _ _ _) as [s1 b] eqn:E1.
  specialize (IH s1). destruct (applyAll s1 ds) as [s2 bs]. cbn [fst] in *.
  etrans; [|exact IH].
  pose proof (oldTime_ApplyDelta_le s (d_seed d) (d_row d) (d_col d) (d_prob d) (d_ts d) seed r c) as H.
  by rewrite E1 in H.
Qed.

(** C2: after [ApplyDelta seed r c d ts] the timestamp stored (and returned)
    for [(seed, r, c)] is the maximum of the previous one (0 for an address
    not yet in the store) and [ts]; hence along any run of [ApplyDelta]
    calls the timestamp of an address at an earlier point is at most the one
    at a later point; and a call whose [ts] is not newer than the stored
    timestamp leaves it as it was. *)
Theorem ApplyDelta_timestamp_max_wins (s : buckets) (seed r c : Z) :
  (∀ d ts,
     timeAt (ApplyDelta s seed r c d ts).1 seed r c = Some (Z.max (oldTime s seed r c) ts) ∧
     LastUpdateTimeMs (ApplyDelta s seed r c d ts).2 = Z.max (oldTime s seed r c) ts) ∧
  (∀ ds1 ds2,
     (oldTime (applyAll s ds1).1 seed r c ≤ oldTime (applyAll s (ds1 ++ ds2)).1 seed r c)%Z) ∧
  (∀ d ts, (ts ≤ oldTime s seed r c)%Z →
     oldTime (ApplyDelta s seed r c d ts).1 seed r c = oldTime s seed r c).
Proof.
  split; [|split].
  - intros d ts. split; [apply timeAt_ApplyDelta|by rewrite ApplyDelta_returned].
  - intros ds1 ds2. rewrite applyAll_app. apply oldTime_applyAll_le.
  - intros d ts Hts. rewrite oldTime_ApplyDelta, decide_True by done. lia.
Qed.

(** The timestamp test of the repository: 3500 after 4000 stays 4000. *)
Lemma timestamp_witness :
  let s := (ApplyDelta ∅ 1 1 1 0.1 4000).1 in
  (3500 ≤ oldTime s 1 1 1)%Z ∧
  oldTime (ApplyDelta s 1 1 1 0.1 3500).1 1 1 1 = oldTime s 1 1 1.
Proof.
  intros s.
  assert (H : (3500 ≤ oldTime s 1 1 1)%Z) by (vm_compute; discriminate).
  split; [exact H|].
  exact (proj2 (proj2 (ApplyDelta_timestamp_max_wins s 1 1 1)) 0.1%float 3500%Z H).
Defined.

(** The negative zero is the only float specified as such. *)
Lemma neg_zero_Prim2SF d : Prim2SF d = S754_zero true → d = (-0)%float.
Proof. intros H. apply Prim2SF_inj. by rewrite H. Qed.

(** Clamping [0.0 + d] and clamping [d] give the same number. *)
Lemma clamp_add_zero_same d : same_number (clamp (PrimFloat.add 0 d)) (clamp d).
Proof.
  destruct (Prim2SF d) as [[]| | |] eqn:E;
    try (left; rewrite add_zero_l; [done|by rewrite E]).
  apply neg_zero_Prim2SF in E as ->. right. reflexivity.
Qed.

(** C10: for an address absent from the store, [ApplyDelta] with any delta
    (zero, negative and NaN included) stores a bucket at that address, with
    the row and column of the address, the probability [clamp (0.0 + d)],
    which is the number [clamp(d, 0, 1)], and the timestamp [max 0 ts]; the
    bucket is among the entries [GetSeed] then returns for the seed. *)
Theorem ApplyDelta_materializes (s : buckets) (seed r c : Z) (d : float) (ts : Z) :
  bucketAt s seed r c = None →
  let s' := (ApplyDelta s seed r c d ts).1 in
  let b := (ApplyDelta s seed r c d ts).2 in
  bucketAt s' seed r c = Some b ∧
  RowId b = r ∧ ColId b = c ∧
  Prob b = clamp (PrimFloat.add 0 d) ∧
  same_number (Prob b) (spec_clamp d 0 1) ∧
  LastUpdateTimeMs b = Z.max 0 ts ∧
  b ∈ GetSeed s' seed.
Proof.
  intros Habs s' b. subst s' b.
  rewrite bucketAt_ApplyDelta_same.
  assert (Hin : (ApplyDelta s seed r c d ts).2 ∈ GetSeed (ApplyDelta s seed r c d ts).1 seed).
  { apply elem_of_GetSeed. exists r, c. apply bucketAt_ApplyDelta_same. }
  revert Hin. rewrite ApplyDelta_returned, Habs, oldProb_absent, oldTime_absent by done.
  cbn [from_option RowId ColId Prob LastUpdateTimeMs]. intros Hin.
  repeat split; try done. apply clamp_add_zero_same.
Qed.

(** A negative delta on the empty store leaves a bucket of probability 0. *)
Lemma ApplyDelta_materializes_witness :
  bucketAt (∅ : buckets) 5 2 3 = None ∧
  Prob (ApplyDelta ∅ 5 2 3 (-0.25)%float 0).2 = clamp (PrimFloat.add 0 (-0.25)) ∧
  (ApplyDelta ∅ 5 2 3 (-0.25)%float 0).2 ∈ GetSeed (ApplyDelta ∅ 5 2 3 (-0.25)%float 0).1 5.
Proof.
  pose proof (ApplyDelta_materializes ∅ 5 2 3 (-0.25)%float 0 eq_refl) as H.
  cbv zeta in H. destruct H as (_ & _ & _ & Hp & _ & _ & Hin).
  split; [reflexivity|]. split; assumption.
Defined.

(** [EvictBefore] removes a top-level key exactly when it is below the
    cut-off. *)
Lemma lookup_EvictBefore (s : buckets) (seed k : Z) :
  EvictBefore s seed !! k = if (k <? seed)%Z then None else s !! k.
Proof.
  unfold EvictBefore.
  set (f := λ (sKey : Z) (_ : gmap Z (gmap Z Bucket)) (acc : buckets),
              if (sKey <? seed)%Z then delete sKey acc else acc).
  enough (H : ∀ acc : buckets,
             map_fold f acc s !! k =
             if (k <? seed)%Z && bool_decide (is_Some (s !! k)) then None else acc !! k).
  { rewrite H. destruct (k <? seed)%Z; [|done]. cbn [andb].
    case_bool_decide as Hk; [done|]. by apply eq_None_not_Some. }
  intros acc.
  induction s as [|i x m Hi Hfold IH] using map_first_key_ind.
  - rewrite map_fold_empty, lookup_empty. rewrite bool_decide_false by (by intros []).
    by rewrite andb_false_r.
  - rewrite map_fold_insert_first_key by done. unfold f at 1.
    destruct (decide (k = i)) as [->|Hne].
    + rewrite lookup_insert_eq. rewrite bool_decide_true by done. rewrite andb_true_r.
      destruct (i <? seed)%Z eqn:E.
      * by rewrite lookup_delete_eq.
      * by rewrite IH.
    + rewrite lookup_insert_ne by done.
      destruct (i <? seed)%Z eqn:E.
      * rewrite lookup_delete_ne by done. apply IH.
      * apply IH.
Qed.

(** The same, read bucket by bucket. *)
Lemma bucketAt_EvictBefore s seed k r c :
  bucketAt (EvictBefore s seed) k r c = if (k <? seed)%Z then None else bucketAt s k r c.
Proof.
  unfold bucketAt, colsOf, rowsOf. rewrite lookup_EvictBefore.
  destruct (k <? seed)%Z; [|done]. cbn. by rewrite !lookup_empty.
Qed.

(** C6: [EvictBefore s seed] deletes exactly the top-level keys below
    [seed]: afterwards [GetSeed] is empty for every older seed, every seed
    from [seed] on keeps its subtree, its [GetSeed] result and each of its
    buckets, and evicting a second time changes nothing. *)
Theorem EvictBefore_deletes_exactly_older_seeds (s : buckets) (seed : Z) :
  (∀ k, EvictBefore s seed !! k = if (k <? seed)%Z then None else s !! k) ∧
  (∀ k, (k < seed)%Z → GetSeed (EvictBefore s seed) k = []) ∧
  (∀ k, (seed ≤ k)%Z →
     EvictBefore s seed !! k = s !! k ∧
     GetSeed (EvictBefore s seed) k = GetSeed s k ∧
     ∀ r c, bucketAt (EvictBefore s seed) k r c = bucketAt s k r c) ∧
  EvictBefore (EvictBefore s seed) seed = EvictBefore s seed.
Proof.
  split; [apply lookup_EvictBefore|]. split; [|split].
  - intros k Hk. unfold GetSeed. rewrite lookup_EvictBefore.
    by rewrite (proj2 (Z.ltb_lt k seed) Hk).
  - intros k Hk.
    assert (E : EvictBefore s seed !! k = s !! k).
    { rewrite lookup_EvictBefore. by rewrite (proj2 (Z.ltb_ge k seed) Hk). }
    split; [done|]. split.
    + unfold GetSeed. by rewrite E.
    + intros r c. rewrite bucketAt_EvictBefore. by rewrite (proj2 (Z.ltb_ge k seed) Hk).
  - apply map_eq. intros k. rewrite !lookup_EvictBefore. by destruct (k <? seed)%Z.
Qed.

(** The eviction test of the repository: seed 1 goes, seed 2 stays. *)
Lemma EvictBefore_witness :
  ((1 < 2)%Z ∧ GetSeed (EvictBefore threeSeeds 2) 1 = []) ∧
  ((2 ≤ 2)%Z ∧ GetSeed (EvictBefore threeSeeds 2) 2 = GetSeed threeSeeds 2) ∧
  GetSeed threeSeeds 1 ≠ [].
Proof.
  destruct (EvictBefore_deletes_exactly_older_seeds threeSeeds 2) as (_ & Hlt & Hge & _).
  split; [split; [lia|apply Hlt; lia]|]. split; [split; [lia|apply Hge; lia]|].
  vm_compute. discriminate.
Defined.

(** The unit test of [ApplyDelta] in the repository, call by call. *)
Example ApplyDelta_test :
  (applyAll ∅ [mkDelta 1 1 1 0.5 1000; mkDelta 1 1 1 0.2 2000; mkDelta 1 1 1 0.5 3000;
               mkDelta 1 1 1 (-1.5) 4000; mkDelta 1 1 1 0.1 3500]).2 =
  [mkBucket 1 1 0.5 1000; mkBucket 1 1 0.7 2000; mkBucket 1 1 1 3000;
   mkBucket 1 1 0 4000; mkBucket 1 1 0.1 4000].
Proof. vm_compute. reflexivity. Qed.

End StoreProperties.

(** ** The broadcast hub *)

Section HubProperties.

Import Statepb Hub.

(** One iteration on a client whose channel is open: the record becomes
    [afterOffer], and the client leaves the set exactly when it had no room. *)
Lemma offer_open msg st client c :
  mem st !! client = Some c → Chan.closed (Send c) = false →
  ∃ st', offer msg st client = Some st' ∧
    mem st' = <[client := afterOffer msg c]> (mem st) ∧
    clients st' = (if hasRoom c then clients st else clients st ∖ {[client]}).
Proof.
  intros Hc Hopen. unfold offer, afterOffer, hasRoom, Chan.trySend, Chan.close.
  rewrite Hc. cbn [mbind option_bind]. rewrite Hopen.
  destruct (length (Chan.buf (Send c)) <? Chan.cap (Send c))%nat; cbn; eauto.
Qed.

(** The fan-out loop over distinct clients with open channels runs to its
    end; it touches no record but theirs, leaves each of them [afterOffer],
    and keeps in the set those that had room. *)
Lemma rangeClients_spec msg cs :
  NoDup cs → ∀ st,
  (∀ x, x ∈ cs → ∃ c, mem st !! x = Some c ∧ Chan.closed (Send c) = false) →
  ∃ st', rangeClients msg cs st = Some st' ∧
    (∀ x, x ∉ cs → mem st' !! x = mem st !! x) ∧
    (∀ x c, x ∈ cs → mem st !! x = Some c → mem st' !! x = Some (afterOffer msg c)) ∧
    (∀ x, x ∈ clients st' ↔
          x ∈ clients st ∧ (x ∈ cs → ∃ c, mem st !! x = Some c ∧ hasRoom c = true)).
Proof.
  induction 1 as [|a rest Ha Hnd IH]; intros st Hopen.
  - exists st. split; [done|]. split; [done|]. split.
    + by intros x c ?%elem_of_nil.
    + intros x. split; [|by intros []]. intros ?. split; [done|]. by intros ?%elem_of_nil.
  - destruct (Hopen a) as (ca & Hca & Hcaopen); [by left|].
    destruct (offer_open msg st a ca Hca Hcaopen) as (st1 & Hoff & Hmem1 & Hcl1).
    destruct (IH st1) as (st' & Hrun & Hout & Hin & Hcl).
    { intros x Hx. destruct (Hopen x) as (c & Hc & Hco); [by right|].
      exists c. split; [|done]. rewrite Hmem1. rewrite lookup_insert_ne; [done|].
      intros ->. done. }
    exists st'. split; [cbn; rewrite Hoff; cbn; done|].
    split; [|split].
    + intros x Hx. apply not_elem_of_cons in Hx as [Hxa Hxr].
      rewrite Hout, Hmem1 by done. by rewrite lookup_insert_ne.
    + intros x c Hx Hc. apply elem_of_cons in Hx as [->|Hx].
      * rewrite Hout, Hmem1 by done. rewrite lookup_insert_eq. congruence.
      * apply Hin; [done|]. rewrite Hmem1. rewrite lookup_insert_ne; [done|].
        intros ->. done.
    + intros x. rewrite Hcl. rewrite Hcl1, Hmem1. split.
      * intros [Hx1 Hx2]. destruct (decide (x = a)) as [->|Hne].
        -- destruct (hasRoom ca) eqn:Hroom; [|set_solver].
           split; [done|]. intros _. eauto.
        -- split; [destruct (hasRoom ca); set_solver|].
           intros Hx. apply elem_of_cons in Hx as [->|Hx]; [done|].
           destruct (Hx2 Hx) as (c & Hc & Hr). rewrite lookup_insert_ne in Hc by done. eauto.
      * intros [Hx1 Hx2]. destruct (decide (x = a)) as [->|Hne].
        -- destruct Hx2 as (c & Hc & Hr); [by left|].
           assert (c = ca) as -> by congruence. rewrite Hr. split; [done|]. done.
        -- split; [destruct (hasRoom ca); set_solver|].
           intros Hx. destruct Hx2 as (c & Hc & Hr); [by right|].
           rewrite lookup_insert_ne by done. eauto.
Qed.

(** A broadcast on a hub whose registered clients are open. *)
Lemma Broadcast_spec st msg :
  registered_open st →
  ∃ st', Broadcast st msg = Some st' ∧
    (∀ x, x ∉ clients st → mem st' !! x = mem st !! x) ∧
    (∀ x, x ∈ clients st → ∃ c, mem st !! x = Some c ∧
        Chan.closed (Send c) = false ∧
        mem st' !! x = Some (afterOffer msg c) ∧
        (x ∈ clients st' ↔ hasRoom c = true)) ∧
    clients st' ⊆ clients st.
Proof.
  intros Hopen. unfold Broadcast, Run.
  destruct (rangeClients_spec msg (elements (clients st)) (NoDup_elements _) st)
    as (st' & Hrun & Hout & Hin & Hcl).
  { intros x Hx. apply Hopen. by apply elem_of_elements. }
  exists st'. split; [done|]. split; [|split].
  - intros x Hx. apply Hout. by rewrite elem_of_elements.
  - intros x Hx. destruct (Hopen x Hx) as (c & Hc & Hco). exists c.
    split; [done|]. split; [done|]. split.
    + apply Hin; [by apply elem_of_elements|done].
    + rewrite Hcl. split.
      * intros [_ H]. destruct H as (c' & Hc' & Hr); [by apply elem_of_elements|]. congruence.
      * intros Hr. split; [done|]. eauto.
  - intros x Hx. by apply Hcl in Hx as [? _].
Qed.

(** Registration keeps registered clients open. *)
Lemma registered_open_Register st st' client :
  registered_open st → Register st = Some (st', client) → registered_open st'.
Proof.
  unfold Register, Run. cbn. intros Hopen [= <- <-] x Hx. cbn in *.
  apply elem_of_union in Hx as [->%elem_of_singleton|Hx].
  - rewrite lookup_insert_eq. eauto.
  - destruct (Hopen x Hx) as (c & Hc & Hco). exists c. split; [|done].
    rewrite lookup_insert_ne; [done|]. intros <-.
    pose proof (is_fresh (dom (mem st))) as Hf. apply Hf, elem_of_dom. eauto.
Qed.

(** So does unregistration: the closed channel belongs to the client that
    left the set. *)
Lemma registered_open_Unregister st st' client :
  registered_open st → Unregister st client = Some st' → registered_open st'.
Proof.
  unfold Unregister, Run. intros Hopen H. case_decide as Hin; [|by inversion H; subst].
  destruct (Hopen client Hin) as (c & Hc & Hco).
  rewrite Hc in H. cbn [mbind option_bind] in H. unfold Chan.close in H. rewrite Hco in H.
  cbn in H. inversion H; subst; clear H. intros x Hx. cbn in *.
  apply elem_of_difference in Hx as [Hx Hne]. rewrite elem_of_singleton in Hne.
  destruct (Hopen x Hx) as (c' & Hc' & Hco'). exists c'. split; [|done].
  by rewrite lookup_insert_ne.
Qed.

(** So does a broadcast: the channels it closes belong to the clients it
    drops. *)
Lemma registered_open_Broadcast st st' msg :
  registered_open st → Broadcast st msg = Some st' → registered_open st'.
Proof.
  intros Hopen H.
  destruct (Broadcast_spec st msg Hopen) as (st'' & H' & Hout & Hin & Hsub).
  assert (st'' = st') as -> by congruence. intros x Hx.
  destruct (Hin x (Hsub x Hx)) as (c & Hc & Hco & Hc' & Hiff). apply Hiff in Hx.
  exists (afterOffer msg c). split; [done|]. unfold afterOffer. by rewrite Hx.
Qed.

(** Receiving from a channel or sending on it does not close it. *)
Lemma registered_open_env st st' :
  registered_open st → env_step st st' → registered_open st'.
Proof.
  intros Hopen Hstep x Hx. destruct Hstep as [st client c v ch' Hc Hrecv|st client c resp ch' Hc Hsend];
    cbn in *; destruct (Hopen x Hx) as (c' & Hc' & Hco');
    (destruct (decide (x = client)) as [->|Hne];
     [rewrite lookup_insert_eq|rewrite lookup_insert_ne by done; eauto]).
  - assert (c' = c) as -> by congruence. eexists. split; [done|]. cbn.
    unfold Chan.recv in Hrecv. destruct (Chan.buf (Send c)); [done|]. by inversion Hrecv.
  - assert (c' = c) as -> by congruence. eexists. split; [done|]. cbn.
    unfold Chan.trySend in Hsend. rewrite Hco' in Hsend.
    destruct (_ <? _)%nat; [|done]. by inversion Hsend.
Qed.

(** In every state the hub reaches, the registered clients are open. *)
Lemma reachable_registered_open st : reachable st → registered_open st.
Proof.
  induction 1 as [|st st' client _ IH H|st st' client _ IH H|st st' msg _ IH H|st st' _ IH H].
  - intros x Hx. cbn in Hx. by apply not_elem_of_empty in Hx.
  - eauto using registered_open_Register.
  - eauto using registered_open_Unregister.
  - eauto using registered_open_Broadcast.
  - eauto using registered_open_env.
Qed.

(** In no state the hub reaches does its loop panic, whatever request
    arrives: no channel is closed twice, no send hits a closed channel. *)
Lemma Run_never_panics st ev : reachable st → is_Some (Run st ev).
Proof.
  intros Hopen%reachable_registered_open. destruct ev as [client|client|msg].
  - done.
  - cbn. case_decide as Hin; [|done].
    destruct (Hopen client Hin) as (c & -> & Hco). cbn.
    unfold Chan.close. by rewrite Hco.
  - destruct (Broadcast_spec st msg Hopen) as (st' & Hb & _). by exists st'.
Qed.

(** C7: in every state the hub reaches, handling a broadcast runs to its
    end (no send blocks, nothing panics), and each client registered when it
    starts either had room, stays registered and has the message appended
    to its queue, or had none, has its queue closed with the buffered
    messages untouched and is no longer registered; whoever is registered
    afterwards was registered before and has the message as the newest
    entry of its queue, and clients that were not registered are not
    touched. *)
Theorem Broadcast_reaches_or_drops_every_client (st : State) (msg : SyncResponse) :
  reachable st →
  ∃ st', Broadcast st msg = Some st' ∧
    (∀ client, client ∈ clients st →
       ∃ c c', mem st !! client = Some c ∧ mem st' !! client = Some c' ∧
         (if hasRoom c
          then client ∈ clients st' ∧ Send c' = Chan.push (Send c) msg
          else (client ∉ clients st') ∧ Chan.closed (Send c') = true ∧
               Chan.buf (Send c') = Chan.buf (Send c))) ∧
    (∀ client, client ∈ clients st' → client ∈ clients st ∧ enqueued st' client msg) ∧
    (∀ client, client ∉ clients st → mem st' !! client = mem st !! client).
Proof.
  intros Hreach. pose proof (reachable_registered_open st Hreach) as Hopen.
  destruct (Broadcast_spec st msg Hopen) as (st' & Hb & Hout & Hin & Hsub).
  exists st'. split; [done|]. split; [|split; [|done]].
  - intros client Hcl. destruct (Hin client Hcl) as (c & Hc & Hco & Hc' & Hiff).
    exists c, (afterOffer msg c). split; [done|]. split; [done|].
    unfold afterOffer. destruct (hasRoom c) eqn:Hr.
    + split; [by apply Hiff|done].
    + split; [rewrite Hiff; congruence|done].
  - intros client Hcl'. split; [by apply Hsub|].
    destruct (Hin client (Hsub client Hcl')) as (c & Hc & Hco & Hc' & Hiff).
    apply Hiff in Hcl'. exists (afterOffer msg c). split; [done|].
    unfold afterOffer. rewrite Hcl'. apply last_snoc.
Qed.

(** The two clients of the broadcast test are reached by two registrations. *)
Lemma twoClients_reachable : reachable twoClients.
Proof.
  apply (reach_Register oneClient twoClients 2%positive).
  - apply (reach_Register NewHub oneClient 1%positive); [apply reach_new|].
    vm_compute. reflexivity.
  - vm_compute. reflexivity.
Qed.

(** A broadcast to them succeeds and reaches both. *)
Lemma Broadcast_witness :
  reachable twoClients ∧
  ∃ st', Broadcast twoClients {| Seed := 123; Buckets := [] |} = Some st' ∧
    ∀ client, client ∈ clients st' →
      client ∈ clients twoClients ∧ enqueued st' client {| Seed := 123; Buckets := [] |}.
Proof.
  split; [exact twoClients_reachable|].
  destruct (Broadcast_reaches_or_drops_every_client twoClients
              {| Seed := 123; Buckets := [] |} twoClients_reachable)
    as (st' & Hb & _ & Hafter & _).
  exists st'. split; [exact Hb|exact Hafter].
Defined.

(** The broadcast test of the repository: both clients get the first
    message; after the first client unregisters, the second message goes to
    the second client only and the first client's channel is closed. *)
Example Hub_Broadcast_test :
  (st1 ← Broadcast twoClients {| Seed := 123; Buckets := [] |};
   st2 ← Unregister st1 1%positive;
   st3 ← Broadcast st2 {| Seed := 456; Buckets := [] |};
   Some (elements (clients st3),
         (λ c, (Seed <$> Chan.buf (Send c), Chan.closed (Send c))) <$> mem st3 !! 1%positive,
         (λ c, (Seed <$> Chan.buf (Send c), Chan.closed (Send c))) <$> mem st3 !! 2%positive))
  = Some ([2%positive], Some ([123%Z], true), Some ([123%Z; 456%Z], false)).
Proof. vm_compute. reflexivity. Qed.

(** A client that never reads is dropped by the broadcast that finds its
    queue full: after 257 broadcasts nobody is registered and both channels
    are closed with 256 messages in them. *)
Example slow_consumers_dropped :
  (st ← foldr (λ _ acc, st ← acc; Broadcast st {| Seed := 7; Buckets := [] |})
             (Some twoClients) (replicate 257 ());
   Some (elements (clients st),
         (λ c, (length (Chan.buf (Send c)), Chan.closed (Send c))) <$> mem st !! 1%positive,
         (λ c, (length (Chan.buf (Send c)), Chan.closed (Send c))) <$> mem st !! 2%positive))
  = Some ([], Some (256, true), Some (256, true)).
Proof. vm_compute. reflexivity. Qed.

End HubProperties.

(** ** The state client *)

Section ClientProperties.

Import Statepb StateClient.

(** A producer never lets the queue grow past its capacity. *)
Lemma enqueue_bounded (c : Client) (req : SyncRequest) :
  length (sendCh c) ≤ sendChCap → length (sendCh (enqueue c req)) ≤ sendChCap.
Proof.
  unfold enqueue. intros H. destruct (length (sendCh c) <? sendChCap) eqn:E; [|done].
  apply Nat.ltb_lt in E. cbn. rewrite length_app. cbn. lia.
Qed.

(** C8: [SendDeltaUpdate] and [RequestFullState] always return, whatever
    the queue holds. With a free slot they put their request at the tail of
    the outbound queue, behind what is already there; with the queue full
    they drop the request and leave the client, queue included, as it was.
    The queue never outgrows its capacity. *)
Theorem producers_enqueue_or_drop (c : Client) (seed : Z) (deltas : list BucketDelta) :
  (length (sendCh c) < sendChCap →
     sendCh (SendDeltaUpdate c seed deltas) = sendCh c ++ [DeltaUpdate seed deltas] ∧
     sendCh (RequestFullState c seed) = sendCh c ++ [StateRequest seed]) ∧
  (sendChCap ≤ length (sendCh c) →
     SendDeltaUpdate c seed deltas = c ∧ RequestFullState c seed = c) ∧
  (length (sendCh c) ≤ sendChCap →
     length (sendCh (SendDeltaUpdate c seed deltas)) ≤ sendChCap ∧
     length (sendCh (RequestFullState c seed)) ≤ sendChCap).
Proof.
  unfold SendDeltaUpdate, RequestFullState. split; [|split].
  - intros H. unfold enqueue. by rewrite (proj2 (Nat.ltb_lt _ _) H).
  - intros H. unfold enqueue. by rewrite (proj2 (Nat.ltb_ge _ _) H).
  - intros H. split; by apply enqueue_bounded.
Qed.

(** A new client takes a request; a saturated one drops it. *)
Lemma producers_witness :
  (length (sendCh (NewClient "localhost:50051")) < sendChCap ∧
   sendCh (RequestFullState (NewClient "localhost:50051") 10) = [StateRequest 10]) ∧
  (sendChCap ≤ length (sendCh saturated) ∧
   SendDeltaUpdate saturated 10 [] = saturated).
Proof.
  assert (Hroom : length (sendCh (NewClient "localhost:50051")) < sendChCap)
    by (vm_compute; lia).
  assert (Hfull : sendChCap ≤ length (sendCh saturated)) by (vm_compute; lia).
  split; (split; [assumption|]).
  - exact (proj2 (proj1 (producers_enqueue_or_drop (NewClient "localhost:50051") 10 [])
                        Hroom)).
  - exact (proj1 (proj1 (proj2 (producers_enqueue_or_drop saturated 10 [])) Hfull)).
Defined.

End ClientProperties.

(** ** The rotating tracker *)

Section TrackerProperties.

Import Statepb Tracker.

Context {T R1 R2 : Type}.
Context `{!Request.Tracker FairnessTrackerConfig T R1 R2}.

Implicit Types ft : FairnessTracker T.

(** The window computation succeeds exactly when the window length, as a
    [uint64], is not zero. *)
Lemma windowAt_Some w now q :
  windowAt w now = Some q ↔ uint64 w ≠ 0%Z ∧ q = (uint64 now / uint64 w)%Z.
Proof.
  unfold windowAt. destruct (uint64 w =? 0)%Z eqn:E.
  - apply Z.eqb_eq in E. split; [done|]. by intros [].
  - apply Z.eqb_neq in E. split; [by intros [= <-]|]. by intros [_ ->].
Qed.

(** A [uint64] is below [2^64]. *)
Lemma uint64_range x : (0 ≤ uint64 x < 2 ^ 64)%Z.
Proof. unfold uint64. apply Z.mod_pos_bound. lia. Qed.

(** Converting a value already in range changes nothing. *)
Lemma uint64_small x : (0 ≤ x < 2 ^ 64)%Z → uint64 x = x.
Proof. unfold uint64. intros. by apply Z.mod_small. Qed.

(** A window index is itself a [uint64]. *)
Lemma window_range w now :
  uint64 w ≠ 0%Z → (0 ≤ uint64 now / uint64 w < 2 ^ 64)%Z.
Proof.
  intros Hw. pose proof (uint64_range w). pose proof (uint64_range now).
  split; [apply Z.div_pos; lia|].
  apply Z.div_lt_upper_bound; nia.
Qed.

(** [RegisterRequest], with the two calls it makes named. *)
Lemma RegisterRequest_fields ft cid :
  let r1 := Request.RegisterRequest (mainStructure ft) cid (stateClient ft) in
  let r2 := Request.RegisterRequest (secondaryStructure ft) cid r1.2 in
  RegisterRequest ft cid =
  ({| trackerConfig := trackerConfig ft; windowMs := windowMs ft;
      mainStructure := r1.1.1; secondaryStructure := r2.1.1;
      stateClient := r2.2 |}, r1.1.2).
Proof.
  unfold RegisterRequest.
  destruct (Request.RegisterRequest (mainStructure ft) cid (stateClient ft)) as [[m r] c1].
  cbn [fst snd].
  by destruct (Request.RegisterRequest (secondaryStructure ft) cid c1) as [[s r'] c2].
Qed.

(** [ReportOutcome], with the two calls it makes named. *)
Lemma ReportOutcome_fields ft cid outcome :
  let r1 := Request.ReportOutcome (mainStructure ft) cid outcome (stateClient ft) in
  let r2 := Request.ReportOutcome (secondaryStructure ft) cid outcome r1.2 in
  ReportOutcome ft cid outcome =
  ({| trackerConfig := trackerConfig ft; windowMs := windowMs ft;
      mainStructure := r1.1.1; secondaryStructure := r2.1.1;
      stateClient := r2.2 |}, r1.1.2).
Proof.
  unfold ReportOutcome.
  destruct (Request.ReportOutcome (mainStructure ft) cid outcome (stateClient ft)) as [[m r] c1].
  cbn [fst snd].
  by destruct (Request.ReportOutcome (secondaryStructure ft) cid outcome c1) as [[s r'] c2].
Qed.

(** The constructor keeps the configuration and a non-zero window length. *)
Lemma New_window cfg now ft :
  NewFairnessTrackerWithClockAndTicker (Some cfg) now = inr ft →
  windowMs ft = Milliseconds (RotationFrequency cfg) ∧ trackerConfig ft = cfg ∧
  uint64 (windowMs ft) ≠ 0%Z.
Proof.
  unfold NewFairnessTrackerWithClockAndTicker.
  destruct (windowAt _ now) as [q|] eqn:Eq; [|done].
  apply windowAt_Some in Eq as [Hw _].
  repeat case_match; try done; by intros [= <-].
Qed.

(** A rotation changes neither. *)
Lemma rotate_window ft now ft' :
  rotate ft now = Some ft' →
  windowMs ft' = windowMs ft ∧ trackerConfig ft' = trackerConfig ft.
Proof.
  unfold rotate. repeat case_match; try done; by intros [= <-].
Qed.

(** So the window length of a tracker is never zero. *)
Lemma reachable_window ft : reachable ft → uint64 (windowMs ft) ≠ 0%Z.
Proof.
  induction 1 as [cfg now ft Hnew|ft now ft' _ IH Hrot|ft cid _ IH|ft cid o _ IH
                 |ft resp _ IH|ft _ IH].
  - by apply New_window in Hnew as (_ & _ & ?).
  - apply rotate_window in Hrot as [-> _]. done.
  - by rewrite RegisterRequest_fields.
  - by rewrite ReportOutcome_fields.
  - unfold onStateUpdate. by repeat case_decide.
  - done.
Qed.

(** With such a window length the seed computation cannot panic. *)
Lemma rotationSeed_Some w now :
  uint64 w ≠ 0%Z →
  rotationSeed w now = Some (uint64 (uint64 now / uint64 w + 1)).
Proof.
  intros Hw. unfold rotationSeed.
  destruct (windowAt w now) as [q|] eqn:E.
  - by apply windowAt_Some in E as [_ ->].
  - exfalso. unfold windowAt in E. apply Z.eqb_neq in Hw. by rewrite Hw in E.
Qed.

(** For a clock and a window length in the range real time offers, nothing
    wraps: the seed is [now / windowMs + 1]. *)
Lemma rotationSeed_no_wrap w now :
  (0 ≤ now < 2 ^ 63)%Z → (0 < w < 2 ^ 63)%Z →
  rotationSeed w now = Some (now / w + 1)%Z.
Proof.
  intros Hnow Hw.
  assert (Ew : uint64 w = w) by (apply uint64_small; lia).
  assert (En : uint64 now = now) by (apply uint64_small; lia).
  rewrite rotationSeed_Some by (rewrite Ew; lia). rewrite Ew, En.
  f_equal. apply uint64_small.
  assert (0 ≤ now / w ≤ now)%Z; [|lia].
  split; [apply Z.div_pos; lia|]. apply Z.div_le_upper_bound; nia.
Qed.

(** C4: on a tick handled when the clock reads [now], a tracker in any
    reachable state computes the seed [(uint64(now) / uint64(windowMs)) + 1]
    in 64-bit arithmetic and asks [createStructure] for a structure of that
    seed; when it gets one, the rotation leaves the previous secondary as
    main, the new structure as secondary, and the state client, if one is
    attached, with a full-state request for the seed offered to its queue;
    when it gets none, the tick changes nothing. *)
Theorem rotation_tick ft (now : Z) :
  reachable ft →
  let seed := uint64 (uint64 now / uint64 (windowMs ft) + 1) in
  rotationSeed (windowMs ft) now = Some seed ∧
  match createStructure (trackerConfig ft) seed (stateClient ft) with
  | Some s =>
      rotate ft now =
      Some {| trackerConfig := trackerConfig ft;
              windowMs := windowMs ft;
              mainStructure := secondaryStructure ft;
              secondaryStructure := s;
              stateClient := requestFullState (stateClient ft) seed |}
  | None => rotate ft now = Some ft
  end.
Proof.
  intros Hreach seed. pose proof (reachable_window ft Hreach) as Hw.
  pose proof (rotationSeed_Some (windowMs ft) now Hw) as Hseed. fold seed in Hseed.
  split; [done|]. unfold rotate. rewrite Hseed.
  by destruct (createStructure (trackerConfig ft) seed (stateClient ft)).
Qed.

(** C5: one call of [RegisterRequest] on the tracker leaves as main what
    the main structure's [RegisterRequest] makes of it for that identifier,
    and as secondary what the secondary structure's [RegisterRequest] makes
    of it for the same identifier (called second, on the state client as
    the first call left it); one call of [ReportOutcome] does the same with
    the two structures' [ReportOutcome], identifier and outcome. *)
Theorem dual_writes ft (clientIdentifier : list Byte.byte) (outcome : Request.Outcome) :
  (let viaMain :=
     Request.RegisterRequest (mainStructure ft) clientIdentifier (stateClient ft) in
   let viaSecondary :=
     Request.RegisterRequest (secondaryStructure ft) clientIdentifier viaMain.2 in
   mainStructure (RegisterRequest ft clientIdentifier).1 = viaMain.1.1 ∧
   secondaryStructure (RegisterRequest ft clientIdentifier).1 = viaSecondary.1.1 ∧
   stateClient (RegisterRequest ft clientIdentifier).1 = viaSecondary.2) ∧
  (let viaMain :=
     Request.ReportOutcome (mainStructure ft) clientIdentifier outcome (stateClient ft) in
   let viaSecondary :=
     Request.ReportOutcome (secondaryStructure ft) clientIdentifier outcome viaMain.2 in
   mainStructure (ReportOutcome ft clientIdentifier outcome).1 = viaMain.1.1 ∧
   secondaryStructure (ReportOutcome ft clientIdentifier outcome).1 = viaSecondary.1.1 ∧
   stateClient (ReportOutcome ft clientIdentifier outcome).1 = viaSecondary.2).
Proof.
  split; cbv zeta.
  - by rewrite RegisterRequest_fields.
  - by rewrite ReportOutcome_fields.
Qed.

(** C9: the result of the tracker's [RegisterRequest] is the result of
    the main structure's [RegisterRequest] for that identifier, and the
    result of its [ReportOutcome] that of the main structure's
    [ReportOutcome]; neither depends on the secondary structure: put any
    other structure in its place and both results stay the same. *)
Theorem result_is_main_result ft (clientIdentifier : list Byte.byte)
    (outcome : Request.Outcome) :
  (RegisterRequest ft clientIdentifier).2 =
    (Request.RegisterRequest (mainStructure ft) clientIdentifier (stateClient ft)).1.2 ∧
  (ReportOutcome ft clientIdentifier outcome).2 =
    (Request.ReportOutcome (mainStructure ft) clientIdentifier outcome (stateClient ft)).1.2 ∧
  (∀ other : T,
     let ft' := {| trackerConfig := trackerConfig ft; windowMs := windowMs ft;
                   mainStructure := mainStructure ft; secondaryStructure := other;
                   stateClient := stateClient ft |} in
     (RegisterRequest ft' clientIdentifier).2 = (RegisterRequest ft clientIdentifier).2 ∧
     (ReportOutcome ft' clientIdentifier outcome).2 =
       (ReportOutcome ft clientIdentifier outcome).2).
Proof.
  split; [by rewrite RegisterRequest_fields|].
  split; [by rewrite ReportOutcome_fields|].
  intros other ft'. by rewrite !RegisterRequest_fields, !ReportOutcome_fields.
Qed.

(** *** Seeds *)

Section Seeds.

Context `{!Request.TrackerSeed FairnessTrackerConfig T R1 R2}.

(** [createStructure] gives a structure of the seed asked for. *)
Lemma createStructure_GetID cfg seed client st :
  createStructure cfg seed client = Some st → Request.GetID st = seed.
Proof.
  unfold createStructure.
  destruct (Request.newTrackerStructureWithClock cfg seed (IncludeStats cfg)) as [st0|] eqn:E;
    [|done].
  apply Request.GetID_new in E.
  destruct client; intros [= <-]; [|done]. by rewrite Request.GetID_SetReportDeltaFunc.
Qed.

(** What one completed rotation does to the seeds: they coincide exactly
    when the tick computes the seed the secondary already has. *)
Lemma rotate_shares_seed_iff ft now seed s :
  rotationSeed (windowMs ft) now = Some seed →
  createStructure (trackerConfig ft) seed (stateClient ft) = Some s →
  ∃ ft', rotate ft now = Some ft' ∧
    (Request.GetID (mainStructure ft') = Request.GetID (secondaryStructure ft') ↔
     Request.GetID (secondaryStructure ft) = seed).
Proof.
  intros Hseed Hs. unfold rotate. rewrite Hseed, Hs. eexists. split; [done|].
  cbn. by rewrite (createStructure_GetID _ _ _ _ Hs).
Qed.

(** Two such seeds differ, wrap-around included. *)
Lemma seeds_ordered_distinct ft q :
  seeds_ordered ft q →
  Request.GetID (mainStructure ft) ≠ Request.GetID (secondaryStructure ft).
Proof.
  intros (a & b & Hab & Hbq & Hq & Hd & -> & ->). unfold uint64.
  rewrite (Z.mod_small a) by lia.
  destruct (decide (b = 2 ^ 64)%Z) as [->|Hb].
  - rewrite Z.mod_same by lia. lia.
  - rewrite (Z.mod_small b) by lia. lia.
Qed.

(** The constructor establishes the order. *)
Lemma seeds_ordered_New cfg now ft :
  NewFairnessTrackerWithClockAndTicker (Some cfg) now = inr ft →
  seeds_ordered ft (uint64 now / uint64 (windowMs ft)).
Proof.
  intros Hnew. destruct (New_window _ _ _ Hnew) as (Hw & _ & Hnz).
  rewrite Hw in *. revert Hnew. unfold NewFairnessTrackerWithClockAndTicker.
  destruct (windowAt _ now) as [q|] eqn:Eq; [|done].
  apply windowAt_Some in Eq as [_ ->].
  set (q := (uint64 now / uint64 (Milliseconds (RotationFrequency cfg)))%Z).
  pose proof (window_range (Milliseconds (RotationFrequency cfg)) now Hnz) as Hq. fold q in Hq.
  destruct (createStructure cfg q _) as [st1|] eqn:E1; [|done].
  destruct (createStructure cfg (uint64 (q + 1)) _) as [st2|] eqn:E2; [|done].
  intros [= <-]. apply createStructure_GetID in E1, E2.
  exists q, (q + 1)%Z. cbn. rewrite E1, E2, (uint64_small q) by done.
  repeat split; lia.
Qed.

(** A tick in a later window keeps it. *)
Lemma seeds_ordered_rotate ft now ft' q :
  seeds_ordered ft q →
  (q < uint64 now / uint64 (windowMs ft))%Z →
  rotate ft now = Some ft' →
  seeds_ordered ft' (uint64 now / uint64 (windowMs ft)).
Proof.
  intros (a & b & Hab & Hbq & Hq & Hd & Ha & Hb) Hlt. unfold rotate, rotationSeed.
  destruct (windowAt (windowMs ft) now) as [q'|] eqn:Eq; [|done].
  apply windowAt_Some in Eq as [Hnz ->].
  set (q' := (uint64 now / uint64 (windowMs ft))%Z) in *.
  pose proof (window_range (windowMs ft) now Hnz) as Hq'. fold q' in Hq'.
  destruct (createStructure _ _ _) as [s|] eqn:E; intros [= <-].
  - apply createStructure_GetID in E. exists b, (q' + 1)%Z. cbn.
    repeat split; try done; lia.
  - exists a, b. repeat split; try done; lia.
Qed.

(** A run of ticks in later and later windows never panics and keeps the
    order. *)
Lemma rotations_seeds_ordered nows : ∀ ft q,
  uint64 (windowMs ft) ≠ 0%Z →
  seeds_ordered ft q →
  Sorted Z.lt (q :: ((λ now, uint64 now / uint64 (windowMs ft))%Z <$> nows)) →
  ∃ ft' q', rotations ft nows = Some ft' ∧ seeds_ordered ft' q'.
Proof.
  induction nows as [|now rest IH]; intros ft q Hnz Hord Hsorted.
  - exists ft, q. done.
  - cbn [rotations]. cbn [fmap list_fmap] in Hsorted.
    apply Sorted_inv in Hsorted as [Hsorted Hhd]. apply HdRel_inv in Hhd.
    destruct (rotate ft now) as [ft1|] eqn:Hrot.
    + pose proof (rotate_window _ _ _ Hrot) as [Hw1 _].
      apply (IH ft1 (uint64 now / uint64 (windowMs ft))%Z).
      * by rewrite Hw1.
      * by eapply seeds_ordered_rotate.
      * by rewrite Hw1.
    + exfalso. unfold rotate in Hrot. rewrite rotationSeed_Some in Hrot by done.
      by destruct (createStructure _ _ _).
Qed.

(** C3, amended: when the clock readings of the construction and of the
    ticks that follow fall in strictly later and later windows, the run of
    rotations never panics and ends in a state whose main and secondary
    structures have different seeds. *)
Theorem seeds_distinct_while_windows_advance
    (cfg : FairnessTrackerConfig) (now0 : Z) (nows : list Z) ft0 :
  NewFairnessTrackerWithClockAndTicker (Some cfg) now0 = inr ft0 →
  advancing (windowMs ft0) (now0 :: nows) →
  ∃ ft, rotations ft0 nows = Some ft ∧
        Request.GetID (mainStructure ft) ≠ Request.GetID (secondaryStructure ft).
Proof.
  intros Hnew Hadv.
  destruct (New_window _ _ _ Hnew) as (_ & _ & Hnz).
  destruct (rotations_seeds_ordered nows ft0 _ Hnz (seeds_ordered_New _ _ _ Hnew) Hadv)
    as (ft & q & Hrun & Hord).
  exists ft. split; [done|]. by eapply seeds_ordered_distinct.
Qed.

End Seeds.

End TrackerProperties.

(** ** The tracker over the stand-in structure *)

Section StandinProperties.

Import Statepb Tracker Standin.

(** The stand-in carries the seed it was made for. *)
#[export] Instance standin_seed :
  Request.TrackerSeed FairnessTrackerConfig Structure (Z * nat) (Z * nat).
Proof.
  split.
  - intros cfg id stats st. cbn. case_match; [|done]. by intros [= <-].
  - done.
Qed.

(** [localTracker] is what the constructor returns at 1000 ms. *)
Lemma localTracker_built :
  NewFairnessTrackerWithClockAndTicker (Some localConfig) 1000 = inr localTracker.
Proof. vm_compute. reflexivity. Qed.

(** C3, as stated, fails: a tracker built at 1000 ms with a 100 ms window
    has seeds 10 and 11; a tick handled at 1050 ms, in the same window,
    computes seed 11 again, and after the rotation main and secondary both
    answer to seed 11. *)
Lemma same_window_tick_shares_a_seed :
  NewFairnessTrackerWithClockAndTicker (Some localConfig) 1000 = inr localTracker ∧
  ∃ ft, rotations localTracker [1050%Z] = Some ft ∧
        Request.GetID (mainStructure ft) = Request.GetID (secondaryStructure ft).
Proof.
  split; [exact localTracker_built|].
  eexists. split; [vm_compute; reflexivity|]. reflexivity.
Qed.

(** Ticks at 1100 ms and 1200 ms, one window apart, keep the seeds apart. *)
Lemma seeds_distinct_witness :
  NewFairnessTrackerWithClockAndTicker (Some localConfig) 1000 = inr localTracker ∧
  advancing (windowMs localTracker) [1000; 1100; 1200]%Z ∧
  ∃ ft, rotations localTracker [1100; 1200]%Z = Some ft ∧
        Request.GetID (mainStructure ft) ≠ Request.GetID (secondaryStructure ft).
Proof.
  assert (Hadv : advancing (windowMs localTracker) [1000; 1100; 1200]%Z).
  { unfold advancing. vm_compute. repeat constructor. }
  split; [exact localTracker_built|]. split; [exact Hadv|].
  exact (seeds_distinct_while_windows_advance localConfig 1000 [1100; 1200]%Z
           localTracker localTracker_built Hadv).
Defined.

(** A tick at 1100 ms on [localTracker]: seed 12, the old secondary becomes
    main. *)
Lemma rotation_tick_witness :
  reachable localTracker ∧
  rotationSeed (windowMs localTracker) 1100 = Some 12%Z ∧
  mainStructure <$> rotate localTracker 1100 = Some (secondaryStructure localTracker).
Proof.
  assert (Hreach : reachable localTracker).
  { exact (reach_new localConfig 1000 localTracker localTracker_built). }
  split; [exact Hreach|].
  destruct (rotation_tick localTracker 1100 Hreach) as [Hseed Hrot].
  split; [exact Hseed|].
  change (createStructure (trackerConfig localTracker)
            (uint64 (uint64 1100 / uint64 (windowMs localTracker) + 1))
            (stateClient localTracker))
    with (Some {| id := 12; pi := 0.1%float; pd := 0.05%float;
                  reportDelta := None; calls := [] |}) in Hrot.
  rewrite Hrot. reflexivity.
Defined.

(** With a state service attached, construction and two ticks leave one
    full-state request per seed in the outbound queue, in order. *)
Example rotation_requests_full_state :
  match NewFairnessTrackerWithClockAndTicker (Some sharedConfig) 1000 with
  | inr ft =>
      (λ ft', (seeds ft', StateClient.sendCh <$> stateClient ft')) <$>
        rotations ft [1100; 1200]%Z
  | inl _ => None
  end
  = Some ((12, 13)%Z, Some [StateRequest 10; StateRequest 11; StateRequest 12; StateRequest 13]).
Proof. vm_compute. reflexivity. Qed.

(** One report on [localTracker] is recorded once by each structure, and
    the answer is the main structure's: seed 10, no call seen before. *)
Example dual_write_recorded :
  let '(ft, resp) := ReportOutcome localTracker [] Request.OutcomeFailure in
  (calls (mainStructure ft), calls (secondaryStructure ft), resp) =
  ([Reported [] Request.OutcomeFailure], [Reported [] Request.OutcomeFailure], (10%Z, 0)).
Proof. vm_compute. reflexivity. Qed.

End StandinProperties.

(** ** Sums that cannot be NaN

    Rounding keeps a non-negative mantissa non-negative, so the sum of a
    finite number and a number is again a number (possibly an infinity). *)

Section FloatSums.

Import Statepb Store StoreRun.

(** One right shift keeps the mantissa non-negative. *)
Lemma shr_1_nonneg mrs : (0 ≤ shr_m mrs)%Z → (0 ≤ shr_m (shr_1 mrs))%Z.
Proof. destruct mrs as [[|[p|p|]|[p|p|]] r s]; cbn; lia. Qed.

(** So does any number of them. *)
Lemma iter_pos_nonneg n : ∀ mrs,
  (0 ≤ shr_m mrs)%Z → (0 ≤ shr_m (SpecFloat.iter_pos shr_1 n mrs))%Z.
Proof.
  induction n as [n IH|n IH|]; intros mrs H; cbn.
  - apply IH, IH. by apply shr_1_nonneg.
  - by apply IH, IH.
  - by apply shr_1_nonneg.
Qed.

(** So does [shr]. *)
Lemma shr_nonneg mrs e n : (0 ≤ shr_m mrs)%Z → (0 ≤ shr_m (shr mrs e n).1)%Z.
Proof. destruct n; cbn; auto using iter_pos_nonneg. Qed.

(** So does the shift to the target exponent. *)
Lemma shr_fexp_nonneg prec emax m e l :
  (0 ≤ m)%Z → (0 ≤ shr_m (shr_fexp prec emax m e l).1)%Z.
Proof.
  intros H. unfold shr_fexp. apply shr_nonneg. by destruct l as [|[]].
Qed.

(** Rounding to nearest even keeps it non-negative too. *)
Lemma round_nearest_even_nonneg m l : (0 ≤ m)%Z → (0 ≤ round_nearest_even m l)%Z.
Proof. destruct l as [|[]]; cbn; try lia. destruct (Z.even m); lia. Qed.

(** Rounding a non-negative mantissa never gives NaN. *)
Lemma binary_round_aux_not_nan prec emax sx mx ex lx :
  (0 ≤ mx)%Z → binary_round_aux prec emax sx mx ex lx ≠ S754_nan.
Proof.
  intros H. unfold binary_round_aux.
  pose proof (shr_fexp_nonneg prec emax mx ex lx H) as H1.
  destruct (shr_fexp prec emax mx ex lx) as [mrs' e']. cbn [fst] in H1.
  pose proof (shr_fexp_nonneg prec emax _ e' loc_Exact
                (round_nearest_even_nonneg _ (loc_of_shr_record mrs') H1)) as H2.
  destruct (shr_fexp prec emax _ e' loc_Exact) as [mrs'' e'']. cbn [fst] in H2.
  destruct (shr_m mrs''); [done| |lia]. by case_match.
Qed.

(** Normalising an integer times a power of two never gives NaN. *)
Lemma binary_normalize_not_nan prec emax m e sz :
  binary_normalize prec emax m e sz ≠ S754_nan.
Proof.
  destruct m; cbn; [done| |]; unfold binary_round;
    destruct (shl_align _ _ _); by apply binary_round_aux_not_nan.
Qed.

(** A finite number plus a number is a number. *)
Lemma SFadd_not_nan prec emax x y :
  is_finite_SF x = true → y ≠ S754_nan → SFadd prec emax x y ≠ S754_nan.
Proof.
  destruct x as [sx| | |sx mx ex], y as [[]|[]| |sy my ey]; cbn; try done;
    try (by destruct sx); intros _ _; apply binary_normalize_not_nan.
Qed.

(** What lies in the unit interval is finite. *)
Lemma in_unit_finite p : in_unit p = true → is_finite_SF (Prim2SF p) = true.
Proof.
  unfold in_unit. rewrite !leb_spec. intros [H0 H1]%andb_prop.
  change (Prim2SF 0) with (S754_zero false) in H0.
  change (Prim2SF 1) with (S754_finite false 4503599627370496 (-52)) in H1.
  by destruct (Prim2SF p) as [|[]| |].
Qed.

(** So a stored probability plus a numeric delta is never NaN. *)
Lemma add_in_unit_not_nan p d :
  in_unit p = true → PrimFloat.is_nan d = false →
  PrimFloat.is_nan (PrimFloat.add p d) = false.
Proof.
  intros Hp Hd. apply is_nan_Prim2SF. rewrite add_spec.
  apply SFadd_not_nan; [by apply in_unit_finite|by apply is_nan_Prim2SF].
Qed.

End FloatSums.

(** ** The store over runs of calls *)

Section StoreRunProperties.

Import Statepb Store StoreRun.

(** [ApplyDelta] leaves the other seeds of the store as they are. *)
Lemma lookup_ApplyDelta_ne s seed r c d ts seed' :
  seed' ≠ seed → (ApplyDelta s seed r c d ts).1 !! seed' = s !! seed'.
Proof. intros H. unfold ApplyDelta. cbn [fst]. by rewrite lookup_insert_ne. Qed.

(** X1: [ApplyDelta] changes the one bucket it is called for and nothing
    else: every other address reads as before, every other seed keeps its
    map and its [GetSeed] listing, and the only top-level key the call can
    add is its own seed. *)
Theorem ApplyDelta_touches_one_bucket s seed r c d ts :
  (∀ seed' r' c', (seed', r', c') ≠ (seed, r, c) →
     bucketAt (ApplyDelta s seed r c d ts).1 seed' r' c' = bucketAt s seed' r' c') ∧
  (∀ seed', seed' ≠ seed →
     (ApplyDelta s seed r c d ts).1 !! seed' = s !! seed' ∧
     GetSeed (ApplyDelta s seed r c d ts).1 seed' = GetSeed s seed') ∧
  dom (ApplyDelta s seed r c d ts).1 = {[seed]} ∪ dom s.
Proof.
  split; [|split].
  - intros seed' r' c' Hne. rewrite bucketAt_ApplyDelta.
    rewrite decide_False; [done|]. intros (-> & -> & ->). done.
  - intros seed' Hne. split; [by apply lookup_ApplyDelta_ne|].
    unfold GetSeed. by rewrite lookup_ApplyDelta_ne.
  - unfold ApplyDelta. cbn [fst]. by rewrite dom_insert_L.
Qed.

(** Neither kind of call puts a bucket under an address it does not name. *)
Lemma well_keyed_step s o : well_keyed s → well_keyed (step s o).
Proof.
  intros Hs seed r c b. destruct o as [d|cut]; cbn [step].
  - rewrite bucketAt_ApplyDelta. case_decide as Heq; [|apply Hs].
    destruct Heq as (-> & -> & ->). intros Hb.
    assert (b = (ApplyDelta s (d_seed d) (d_row d) (d_col d) (d_prob d) (d_ts d)).2)
      as -> by congruence.
    rewrite ApplyDelta_returned. cbn [RowId ColId].
    destruct (bucketAt s (d_seed d) (d_row d) (d_col d)) as [b0|] eqn:E; [|done].
    cbn. by apply Hs in E.
  - rewrite bucketAt_EvictBefore. case_match; [done|apply Hs].
Qed.

(** The empty store is well keyed. *)
Lemma well_keyed_empty : well_keyed ∅.
Proof. intros seed r c b. unfold bucketAt, colsOf, rowsOf. by rewrite !lookup_empty. Qed.

(** So is every store a run of calls leads to from a well-keyed one. *)
Lemma well_keyed_run s ops : well_keyed s → well_keyed (run s ops).
Proof.
  revert s. induction ops as [|o ops IH]; intros s Hs; [done|].
  cbn [run foldl]. apply IH. by apply well_keyed_step.
Qed.

(** [GetSeed] as a bind over the rows of the seed. *)
Lemma GetSeed_bind s seed seedMap :
  s !! seed = Some seedMap →
  GetSeed s seed = map_to_list seedMap ≫= λ rm, copyBucket <$> (map_to_list rm.2).*2.
Proof.
  intros E. unfold GetSeed. rewrite E.
  generalize (map_to_list seedMap). intros l.
  induction l as [|[r m] l IH]; [done|]. cbn. by rewrite IH.
Qed.

(** In a well-keyed store [GetSeed] lists no address twice. *)
Lemma GetSeed_NoDup_addresses s seed :
  well_keyed s → NoDup (address <$> GetSeed s seed).
Proof.
  intros Hs. apply NoDup_fmap_2_strong.
  - intros b1 b2 [r1 [c1 H1]]%elem_of_GetSeed [r2 [c2 H2]]%elem_of_GetSeed Ha.
    destruct (Hs _ _ _ _ H1) as [Hr1 Hc1], (Hs _ _ _ _ H2) as [Hr2 Hc2].
    unfold address in Ha. injection Ha as Er Ec.
    assert (r1 = r2) as -> by congruence. assert (c1 = c2) as -> by congruence.
    congruence.
  - destruct (s !! seed) as [seedMap|] eqn:E; [|unfold GetSeed; rewrite E; constructor].
    rewrite (GetSeed_bind _ _ _ E). apply NoDup_bind.
    + intros [r1 m1] [r2 m2] b Hm1%elem_of_map_to_list Hm2%elem_of_map_to_list Hb1 Hb2.
      cbn in Hb1, Hb2.
      apply list_elem_of_fmap in Hb1 as [b1 [-> Hb1]], Hb2 as [b2 [Hb Hb2]].
      apply list_elem_of_fmap in Hb1 as [[c1 b1'] [-> Hb1]], Hb2 as [[c2 b2'] [-> Hb2]].
      apply elem_of_map_to_list in Hb1, Hb2. cbn in *. rewrite !copyBucket_id in Hb. subst b2'.
      assert (H1 : bucketAt s seed r1 c1 = Some b1').
      { unfold bucketAt, colsOf, rowsOf. rewrite E. cbn. rewrite Hm1. done. }
      assert (H2 : bucketAt s seed r2 c2 = Some b1').
      { unfold bucketAt, colsOf, rowsOf. rewrite E. cbn. rewrite Hm2. done. }
      destruct (Hs _ _ _ _ H1) as [Hr1 _], (Hs _ _ _ _ H2) as [Hr2 _].
      assert (r1 = r2) as -> by congruence. f_equal. congruence.
    + intros [r m] Hm%elem_of_map_to_list. cbn.
      apply NoDup_fmap_2_strong.
      * intros b1 b2 Hb1 Hb2. by rewrite !copyBucket_id.
      * apply NoDup_fmap_2_strong; [|apply NoDup_map_to_list].
        intros [c1 b1] [c2 b2] H1%elem_of_map_to_list H2%elem_of_map_to_list Heq.
        cbn in Heq. subst b2.
        assert (B1 : bucketAt s seed r c1 = Some b1).
        { unfold bucketAt, colsOf, rowsOf. rewrite E. cbn. rewrite Hm. done. }
        assert (B2 : bucketAt s seed r c2 = Some b1).
        { unfold bucketAt, colsOf, rowsOf. rewrite E. cbn. rewrite Hm. done. }
        destruct (Hs _ _ _ _ B1) as [_ Hc1], (Hs _ _ _ _ B2) as [_ Hc2].
        f_equal. congruence.
    + apply NoDup_map_to_list.
Qed.

(** X2: in every store reached from the empty one by [ApplyDelta] and
    [EvictBefore] calls, each bucket carries the row and column it is stored
    under; [GetSeed] lists no address twice, and lists a bucket exactly when
    the store holds it at the address the bucket names. *)
Theorem store_buckets_sit_under_their_address (ops : list op) (seed : Z) :
  well_keyed (run ∅ ops) ∧
  NoDup (address <$> GetSeed (run ∅ ops) seed) ∧
  (∀ b, b ∈ GetSeed (run ∅ ops) seed ↔
        bucketAt (run ∅ ops) seed (RowId b) (ColId b) = Some b).
Proof.
  pose proof (well_keyed_run ∅ ops well_keyed_empty) as Hk.
  split; [done|]. split; [by apply GetSeed_NoDup_addresses|].
  intros b. rewrite elem_of_GetSeed. split; [|eauto].
  intros (r & c & H). by destruct (Hk _ _ _ _ H) as [-> ->].
Qed.

(** A call with a numeric delta, or an eviction, keeps the probabilities in
    the unit interval. *)
Lemma in_unit_step s o :
  probabilities_in_unit s → numeric o = true → probabilities_in_unit (step s o).
Proof.
  intros Hs Ho seed r c b. destruct o as [d|cut]; cbn [step numeric] in *.
  - rewrite bucketAt_ApplyDelta. case_decide as Heq; [|apply Hs].
    intros Hb.
    assert (b = (ApplyDelta s (d_seed d) (d_row d) (d_col d) (d_prob d) (d_ts d)).2)
      as -> by congruence.
    apply ApplyDelta_in_unit.
    apply negb_true_iff in Ho. apply add_in_unit_not_nan; [|done].
    unfold oldProb, probAt.
    destruct (bucketAt s (d_seed d) (d_row d) (d_col d)) as [b0|] eqn:E; [|done].
    cbn. by apply Hs in E.
  - rewrite bucketAt_EvictBefore. case_match; [done|apply Hs].
Qed.

(** X3: as long as no delta is NaN, every probability in a store reached
    from the empty one by [ApplyDelta] and [EvictBefore] calls lies in
    [0,1], infinite deltas included. *)
Theorem numeric_deltas_keep_probabilities_in_unit (ops : list op) :
  forallb numeric ops = true → probabilities_in_unit (run ∅ ops).
Proof.
  assert (H : ∀ s, probabilities_in_unit s → forallb numeric ops = true →
                   probabilities_in_unit (run s ops)).
  { induction ops as [|o ops IH]; intros s Hs Hn; [done|].
    cbn [forallb] in Hn. apply andb_prop in Hn as [Ho Hn]. cbn [run foldl]. apply IH; [|done].
    by apply in_unit_step. }
  apply H. intros seed r c b. unfold bucketAt, colsOf, rowsOf. by rewrite !lookup_empty.
Qed.

(** The sample run has numeric deltas only; the bucket of seed 9 is in [0,1]. *)
Lemma numeric_witness :
  forallb numeric sampleRun = true ∧
  ∀ b, b ∈ GetSeed (run ∅ sampleRun) 9 → in_unit (Prob b) = true.
Proof.
  assert (Hn : forallb numeric sampleRun = true) by (vm_compute; reflexivity).
  split; [exact Hn|]. intros b [r [c H]]%elem_of_GetSeed.
  exact (numeric_deltas_keep_probabilities_in_unit sampleRun Hn 9%Z r c b H).
Defined.

(** The timestamp an address has after a run of calls is the largest among
    the old one and those of the calls for that address. *)
Lemma oldTime_applyAll_latest ds : ∀ s seed r c,
  oldTime (applyAll s ds).1 seed r c = latest seed r c (oldTime s seed r c) ds.
Proof.
  induction ds as [|d ds IH]; intros s seed r c; [done|].
  cbn [applyAll]. destruct (ApplyDelta _ _ _ _ _ _) as [s1 b] eqn:E1.
  specialize (IH s1 seed r c). destruct (applyAll s1 ds) as [s2 bs]. cbn [fst] in *.
  rewrite IH. unfold latest. cbn [foldl]. f_equal.
  pose proof (oldTime_ApplyDelta s (d_seed d) (d_row d) (d_col d) (d_prob d) (d_ts d) seed r c) as H.
  rewrite E1 in H. cbn [fst] in H. rewrite H.
  destruct (decide (seed = d_seed d ∧ r = d_row d ∧ c = d_col d)) as [(-> & -> & ->)|Hn].
  - by rewrite decide_True.
  - rewrite decide_False; [done|]. intros (? & ? & ?). apply Hn. done.
Qed.

(** That maximum does not depend on the order of the calls. *)
Lemma latest_permutation seed r c ds ds' :
  ds ≡ₚ ds' → ∀ t0, latest seed r c t0 ds = latest seed r c t0 ds'.
Proof.
  unfold latest. induction 1 as [|x l l' _ IH|x y l|l1 l2 l3 _ IH1 _ IH2]; intros t0.
  - done.
  - cbn. apply IH.
  - cbn. f_equal. repeat case_decide; lia.
  - by rewrite IH1.
Qed.

(** X4: the timestamp a bucket ends up with does not depend on the order in
    which the deltas arrive: two runs of the same [ApplyDelta] calls in
    different orders leave the same timestamp at every address, namely the
    largest of the old timestamp and the timestamps of the calls for that
    address. *)
Theorem timestamps_ignore_arrival_order (s : buckets) (ds ds' : list Delta) (seed r c : Z) :
  ds ≡ₚ ds' →
  oldTime (applyAll s ds).1 seed r c = oldTime (applyAll s ds').1 seed r c ∧
  oldTime (applyAll s ds).1 seed r c = latest seed r c (oldTime s seed r c) ds.
Proof.
  intros Hp. rewrite !oldTime_applyAll_latest. split; [|done]. by apply latest_permutation.
Qed.

(** Two deltas for one bucket, newer first or older first. *)
Lemma timestamps_witness :
  [mkDelta 1 1 1 0.1 4000; mkDelta 1 1 1 0.1 3500] ≡ₚ
    [mkDelta 1 1 1 0.1 3500; mkDelta 1 1 1 0.1 4000] ∧
  oldTime (applyAll ∅ [mkDelta 1 1 1 0.1 4000; mkDelta 1 1 1 0.1 3500]).1 1 1 1 =
  oldTime (applyAll ∅ [mkDelta 1 1 1 0.1 3500; mkDelta 1 1 1 0.1 4000]).1 1 1 1.
Proof.
  assert (Hp : [mkDelta 1 1 1 0.1 4000; mkDelta 1 1 1 0.1 3500] ≡ₚ
               [mkDelta 1 1 1 0.1 3500; mkDelta 1 1 1 0.1 4000]) by apply perm_swap.
  split; [exact Hp|].
  exact (proj1 (timestamps_ignore_arrival_order ∅ _ _ 1 1 1 Hp)).
Defined.

(** The rows of a seed after [ApplyDelta]. *)
Lemma rowsOf_ApplyDelta s seed r c d ts seed' :
  rowsOf (ApplyDelta s seed r c d ts).1 seed' =
  if decide (seed' = seed)
  then <[r := <[c := (ApplyDelta s seed r c d ts).2]> (colsOf s seed r)]> (rowsOf s seed)
  else rowsOf s seed'.
Proof.
  unfold rowsOf at 1. unfold ApplyDelta. cbn [fst snd]. rewrite copyBucket_id.
  case_decide as H; [subst; by rewrite lookup_insert_eq|by rewrite lookup_insert_ne].
Qed.

(** The columns of a row after [ApplyDelta]. *)
Lemma colsOf_ApplyDelta s seed r c d ts seed' r' :
  colsOf (ApplyDelta s seed r c d ts).1 seed' r' =
  if decide (seed' = seed ∧ r' = r)
  then <[c := (ApplyDelta s seed r c d ts).2]> (colsOf s seed r)
  else colsOf s seed' r'.
Proof.
  unfold colsOf at 1. rewrite rowsOf_ApplyDelta.
  destruct (decide (seed' = seed)) as [->|Hs].
  - destruct (decide (r' = r)) as [->|Hr].
    + rewrite lookup_insert_eq. by rewrite decide_True.
    + rewrite lookup_insert_ne by done. rewrite decide_False; [done|]. by intros [_ ?].
  - rewrite decide_False; [done|]. by intros [? _].
Qed.

(** The store [ApplyDelta] leaves, in terms of the bucket it returns. *)
Lemma ApplyDelta_store s seed r c d ts :
  (ApplyDelta s seed r c d ts).1 =
  <[seed := <[r := <[c := (ApplyDelta s seed r c d ts).2]> (colsOf s seed r)]>
              (rowsOf s seed)]> s.
Proof. unfold ApplyDelta. cbn [fst snd]. by rewrite copyBucket_id. Qed.

(** What [ApplyDelta] returns does not depend on an earlier call for another
    address. *)
Lemma ApplyDelta_returned_frame s seed r c d ts seed' r' c' d' ts' :
  (seed', r', c') ≠ (seed, r, c) →
  (ApplyDelta (ApplyDelta s seed r c d ts).1 seed' r' c' d' ts').2 =
  (ApplyDelta s seed' r' c' d' ts').2.
Proof.
  intros Hne. rewrite !ApplyDelta_returned.
  unfold oldProb, oldTime, probAt, timeAt. rewrite !bucketAt_ApplyDelta.
  rewrite decide_False; [done|]. intros (-> & -> & ->). done.
Qed.

(** X5: two [ApplyDelta] calls for different addresses commute: either order
    leaves the same store, and each call returns the bucket it would have
    returned without the other. *)
Theorem deltas_to_different_buckets_commute s seed1 r1 c1 d1 ts1 seed2 r2 c2 d2 ts2 :
  (seed1, r1, c1) ≠ (seed2, r2, c2) →
  (ApplyDelta (ApplyDelta s seed1 r1 c1 d1 ts1).1 seed2 r2 c2 d2 ts2).1 =
  (ApplyDelta (ApplyDelta s seed2 r2 c2 d2 ts2).1 seed1 r1 c1 d1 ts1).1 ∧
  (ApplyDelta (ApplyDelta s seed1 r1 c1 d1 ts1).1 seed2 r2 c2 d2 ts2).2 =
  (ApplyDelta s seed2 r2 c2 d2 ts2).2 ∧
  (ApplyDelta (ApplyDelta s seed2 r2 c2 d2 ts2).1 seed1 r1 c1 d1 ts1).2 =
  (ApplyDelta s seed1 r1 c1 d1 ts1).2.
Proof.
  intros Hne.
  assert (Hne' : (seed2, r2, c2) ≠ (seed1, r1, c1)) by congruence.
  pose proof (ApplyDelta_returned_frame s seed1 r1 c1 d1 ts1 seed2 r2 c2 d2 ts2 Hne') as E2.
  pose proof (ApplyDelta_returned_frame s seed2 r2 c2 d2 ts2 seed1 r1 c1 d1 ts1 Hne) as E1.
  split; [|by split].
  rewrite (ApplyDelta_store (ApplyDelta s seed1 r1 c1 d1 ts1).1),
          (ApplyDelta_store (ApplyDelta s seed2 r2 c2 d2 ts2).1).
  rewrite E1, E2, !colsOf_ApplyDelta, !rowsOf_ApplyDelta.
  set (b1 := (ApplyDelta s seed1 r1 c1 d1 ts1).2).
  set (b2 := (ApplyDelta s seed2 r2 c2 d2 ts2).2).
  rewrite !ApplyDelta_store. fold b1 b2.
  destruct (decide (seed2 = seed1)) as [->|Hs].
  - rewrite (decide_True (P := seed1 = seed1)) by done.
    rewrite !insert_insert_eq. f_equal.
    destruct (decide (r2 = r1)) as [->|Hr].
    + rewrite !decide_True by done. rewrite !insert_insert_eq. f_equal.
      apply insert_insert_ne. intros ->. done.
    + rewrite !decide_False by (intros [_ ?]; congruence).
      by apply insert_insert_ne.
  - rewrite (decide_False (P := seed1 = seed2)) by congruence.
    rewrite !decide_False by (intros [? _]; congruence).
    by apply insert_insert_ne.
Qed.

(** Two deltas for two columns of one row. *)
Lemma commute_witness :
  ((1, 0, 3) : Z * Z * Z)%Z ≠ (1, 0, 4)%Z ∧
  (ApplyDelta (ApplyDelta ∅ 1 0 3 0.7 10).1 1 0 4 0.5 20).1 =
  (ApplyDelta (ApplyDelta ∅ 1 0 4 0.5 20).1 1 0 3 0.7 10).1.
Proof.
  assert (Hne : ((1, 0, 3) : Z * Z * Z)%Z ≠ (1, 0, 4)%Z) by discriminate.
  split; [exact Hne|].
  exact (proj1 (deltas_to_different_buckets_commute ∅ 1 0 3 0.7 10 1 0 4 0.5 20 Hne)).
Defined.

(** X6: two evictions in a row amount to one with the larger cutoff, so
    their order does not matter; an eviction whose cutoff is not above any
    seed of the store changes nothing. *)
Theorem evictions_compose (s : buckets) (a b : Z) :
  EvictBefore (EvictBefore s a) b = EvictBefore s (Z.max a b) ∧
  EvictBefore (EvictBefore s a) b = EvictBefore (EvictBefore s b) a ∧
  ((∀ k, k ∈ dom s → (a ≤ k)%Z) → EvictBefore s a = s).
Proof.
  assert (H : ∀ x y, EvictBefore (EvictBefore s x) y = EvictBefore s (Z.max x y)).
  { intros x y. apply map_eq. intros k. rewrite !lookup_EvictBefore.
    destruct (k <? y)%Z eqn:Ey, (k <? x)%Z eqn:Ex, (k <? Z.max x y)%Z eqn:Em; try done;
      rewrite ?Z.ltb_lt, ?Z.ltb_ge in *; lia. }
  split; [apply H|]. split; [by rewrite !H, Z.max_comm|].
  intros Hall. apply map_eq. intros k. rewrite lookup_EvictBefore.
  destruct (k <? a)%Z eqn:E; [|done]. apply Z.ltb_lt in E.
  destruct (s !! k) eqn:Ek; [|done]. exfalso.
  assert (k ∈ dom s) as Hk%Hall by (apply elem_of_dom; eauto). lia.
Qed.

(** Nothing in [threeSeeds] is below seed 1. *)
Lemma evictions_witness :
  (∀ k, k ∈ dom threeSeeds → (1 ≤ k)%Z) ∧ EvictBefore threeSeeds 1 = threeSeeds.
Proof.
  assert (H : ∀ k, k ∈ dom threeSeeds → (1 ≤ k)%Z).
  { intros k Hk. apply elem_of_dom in Hk as [x Hk].
    destruct (decide (1 ≤ k)%Z) as [|Hn]; [done|]. exfalso.
    assert (E : EvictBefore threeSeeds 1 !! k = None).
    { rewrite lookup_EvictBefore. by rewrite (proj2 (Z.ltb_lt k 1)) by lia. }
    assert (E' : EvictBefore threeSeeds 1 = threeSeeds) by (vm_compute; reflexivity).
    rewrite E' in E. congruence. }
  split; [exact H|]. exact (proj2 (proj2 (evictions_compose threeSeeds 1 1)) H).
Defined.

(** X7: a delta that arrives for a seed already evicted brings the seed
    back: the bucket starts again from probability 0 and timestamp 0, and it
    is the only bucket [GetSeed] then lists for the seed. *)
Theorem delta_after_eviction_starts_afresh (s : buckets) (cutoff seed r c : Z)
    (d : float) (ts : Z) :
  (seed < cutoff)%Z →
  let fresh := {| RowId := r; ColId := c; Prob := clamp (PrimFloat.add 0 d);
                  LastUpdateTimeMs := Z.max 0 ts |} in
  (ApplyDelta (EvictBefore s cutoff) seed r c d ts).2 = fresh ∧
  GetSeed (ApplyDelta (EvictBefore s cutoff) seed r c d ts).1 seed = [fresh].
Proof.
  intros Hlt fresh.
  assert (Habs : EvictBefore s cutoff !! seed = None).
  { rewrite lookup_EvictBefore. by rewrite (proj2 (Z.ltb_lt seed cutoff) Hlt). }
  assert (Hb : bucketAt (EvictBefore s cutoff) seed r c = None).
  { rewrite bucketAt_EvictBefore. by rewrite (proj2 (Z.ltb_lt seed cutoff) Hlt). }
  assert (Hret : (ApplyDelta (EvictBefore s cutoff) seed r c d ts).2 = fresh).
  { rewrite ApplyDelta_returned, Hb, oldProb_absent, oldTime_absent by done. done. }
  split; [done|].
  unfold GetSeed. rewrite ApplyDelta_store, lookup_insert_eq, Hret.
  unfold colsOf, rowsOf. rewrite Habs. cbn [default from_option id].
  rewrite lookup_empty. cbn [default from_option id].
  rewrite !insert_empty, !map_to_list_singleton. cbn.
  rewrite map_to_list_singleton. cbn. by rewrite copyBucket_id.
Qed.

(** Seed 1 of [threeSeeds], evicted and written again. *)
Lemma delta_after_eviction_witness :
  (1 < 2)%Z ∧
  GetSeed (ApplyDelta (EvictBefore threeSeeds 2) 1 4 4 0.25 50).1 1 =
    [{| RowId := 4; ColId := 4; Prob := clamp (PrimFloat.add 0 0.25);
        LastUpdateTimeMs := Z.max 0 50 |}].
Proof.
  assert (H : (1 < 2)%Z) by lia. split; [exact H|].
  exact (proj2 (delta_after_eviction_starts_afresh threeSeeds 2 1 4 4 0.25 50 H)).
Defined.

End StoreRunProperties.

(** ** The periodic eviction *)

Section EvictionProperties.

Import Statepb Store StoreRun Tracker.

(** A duration has zero milliseconds exactly when it is shorter than one. *)
Lemma Milliseconds_zero d : Milliseconds d = 0%Z ↔ (-1000000 < d < 1000000)%Z.
Proof.
  unfold Milliseconds. split.
  - intros H. pose proof (Z.quot_rem' d 1000000) as E. rewrite H in E.
    pose proof (Z.rem_bound_abs d 1000000). lia.
  - intros H. apply Z.quot_small_iff; lia.
Qed.

(** And so it is after the conversion to [uint64]. *)
Lemma uint64_Milliseconds_zero d :
  (- 2 ^ 63 ≤ d < 2 ^ 63)%Z →
  uint64 (Milliseconds d) = 0%Z ↔ (-1000000 < d < 1000000)%Z.
Proof.
  intros Hd. rewrite <- Milliseconds_zero. unfold uint64. split.
  - intros H. apply Z.mod_divide in H; [|lia]. destruct H as [k Hk].
    assert (Z.abs (Milliseconds d) ≤ Z.abs d)%Z.
    { unfold Milliseconds. pose proof (Z.quot_abs d 1000000).
      assert (Z.abs d ÷ Z.abs 1000000 ≤ Z.abs d)%Z; [|lia].
      change (Z.abs 1000000) with 1000000%Z.
      apply Z.quot_le_upper_bound; lia. }
    assert (k = 0)%Z by nia. lia.
  - intros ->. done.
Qed.

(** A duration of a millisecond or more has at least one. *)
Lemma Milliseconds_pos d : (1000000 ≤ d)%Z → (1 ≤ Milliseconds d ≤ d)%Z.
Proof.
  intros H. unfold Milliseconds. rewrite Z.quot_div_nonneg by lia.
  split.
  - apply Z.div_le_lower_bound; lia.
  - apply Z.div_le_upper_bound; lia.
Qed.

(** X8: [runEviction] panics with a division by zero exactly when the
    store's window is shorter than a millisecond. With a window of a
    millisecond or more and an eviction TTL between zero and the time since
    the epoch, it evicts below the seed of the window the cutoff time falls
    in, which is not above the seed of the window the clock is in: every
    seed from the current one on is kept. *)
Theorem runEviction_spares_the_current_window (windowSize evictionTTL now : Z) (s : buckets) :
  ((- 2 ^ 63 ≤ windowSize < 2 ^ 63)%Z →
     runEviction windowSize evictionTTL now s = None ↔
     (-1000000 < windowSize < 1000000)%Z) ∧
  ((1000000 ≤ windowSize < 2 ^ 63)%Z → (0 ≤ evictionTTL ≤ now)%Z → (now < 2 ^ 63)%Z →
     let cutoffSeed := (UnixMilli (now - evictionTTL) / Milliseconds windowSize)%Z in
     let currentSeed := (UnixMilli now / Milliseconds windowSize)%Z in
     runEviction windowSize evictionTTL now s = Some (EvictBefore s cutoffSeed) ∧
     (cutoffSeed ≤ currentSeed)%Z ∧
     ∀ k, (currentSeed ≤ k)%Z → EvictBefore s cutoffSeed !! k = s !! k).
Proof.
  split.
  - intros Hw. rewrite <- uint64_Milliseconds_zero by done. unfold runEviction.
    destruct (uint64 (Milliseconds windowSize) =? 0)%Z eqn:E.
    + apply Z.eqb_eq in E. done.
    + apply Z.eqb_neq in E. split; [done|]. intros ?. done.
  - intros Hw Httl Hnow cutoffSeed currentSeed.
    pose proof (Milliseconds_pos windowSize ltac:(lia)) as Hms.
    assert (Ew : uint64 (Milliseconds windowSize) = Milliseconds windowSize)
      by (apply uint64_small; lia).
    assert (Hc : (0 ≤ UnixMilli (now - evictionTTL) ≤ UnixMilli now)%Z).
    { unfold UnixMilli. split; [apply Z.div_pos; lia|apply Z.div_le_mono; lia]. }
    assert (Hn : (UnixMilli now ≤ now)%Z).
    { unfold UnixMilli. apply Z.div_le_upper_bound; lia. }
    assert (Ec : uint64 (UnixMilli (now - evictionTTL)) = UnixMilli (now - evictionTTL))
      by (apply uint64_small; lia).
    assert (Hle : (cutoffSeed ≤ currentSeed)%Z).
    { subst cutoffSeed currentSeed. apply Z.div_le_mono; lia. }
    split; [|split; [done|]].
    + unfold runEviction. rewrite Ew, Ec.
      destruct (Milliseconds windowSize =? 0)%Z eqn:E; [apply Z.eqb_eq in E; lia|done].
    + intros k Hk. rewrite lookup_EvictBefore.
      by rewrite (proj2 (Z.ltb_ge k cutoffSeed)) by lia.
Qed.

(** A window of five minutes, a TTL of fifteen, a clock in 2026: the seeds
    from the current one on are kept. *)
Lemma runEviction_witness :
  let window := 300000000000%Z in
  let ttl := 900000000000%Z in
  let now := 1793500000000000000%Z in
  ((1000000 ≤ window < 2 ^ 63)%Z ∧ (0 ≤ ttl ≤ now)%Z ∧ (now < 2 ^ 63)%Z) ∧
  ∀ k, (UnixMilli now / Milliseconds window ≤ k)%Z →
    EvictBefore threeSeeds (UnixMilli (now - ttl) / Milliseconds window) !! k =
    threeSeeds !! k.
Proof.
  intros window ttl now.
  assert (H1 : (1000000 ≤ window < 2 ^ 63)%Z) by (subst window; lia).
  assert (H2 : (0 ≤ ttl ≤ now)%Z) by (subst ttl now; lia).
  assert (H3 : (now < 2 ^ 63)%Z) by (subst now; lia).
  split; [by repeat split|].
  exact (proj2 (proj2 (proj2 (runEviction_spares_the_current_window window ttl now threeSeeds)
                         H1 H2 H3))).
Defined.

(** X9: with an eviction TTL longer than the time since the epoch the cutoff
    time is negative, its conversion to [uint64] wraps, and [runEviction]
    deletes every seed up to the one after the current window: the store
    loses the state of the live windows. *)
Theorem runEviction_with_cutoff_before_the_epoch_wipes
    (windowSize evictionTTL now : Z) (s : buckets) :
  (1000000 ≤ windowSize < 2 ^ 63)%Z → (0 ≤ now < evictionTTL)%Z → (evictionTTL < 2 ^ 63)%Z →
  ∃ s', runEviction windowSize evictionTTL now s = Some s' ∧
    ∀ k, (k ≤ UnixMilli now / Milliseconds windowSize + 1)%Z → s' !! k = None.
Proof.
  intros Hw Hnow Httl.
  pose proof (Milliseconds_pos windowSize ltac:(lia)) as Hms.
  assert (Ew : uint64 (Milliseconds windowSize) = Milliseconds windowSize)
    by (apply uint64_small; lia).
  set (w := Milliseconds windowSize) in *.
  set (c := UnixMilli (now - evictionTTL)).
  assert (Hc : (- 2 ^ 63 ≤ c < 0)%Z).
  { subst c. unfold UnixMilli. split.
    - apply Z.div_le_lower_bound; lia.
    - apply Z.div_lt_upper_bound; lia. }
  assert (Ec : uint64 c = (c + 2 ^ 64)%Z).
  { unfold uint64. rewrite <- (Z.mod_add c 1 (2 ^ 64)) by lia.
    rewrite Z.mul_1_l. apply Z.mod_small. lia. }
  assert (Hn : (0 ≤ UnixMilli now ≤ now)%Z).
  { unfold UnixMilli. split; [apply Z.div_pos; lia|apply Z.div_le_upper_bound; lia]. }
  assert (Hwn : (w * 1000000 ≤ windowSize)%Z).
  { subst w. unfold Milliseconds. rewrite Z.quot_div_nonneg by lia.
    pose proof (Z.mul_div_le windowSize 1000000). lia. }
  assert (Hn6 : (UnixMilli now * 1000000 ≤ now)%Z).
  { unfold UnixMilli. pose proof (Z.mul_div_le now 1000000). lia. }
  unfold runEviction. fold w. fold c. rewrite Ew, Ec.
  destruct (w =? 0)%Z eqn:E; [apply Z.eqb_eq in E; lia|].
  eexists. split; [done|]. intros k Hk. rewrite lookup_EvictBefore.
  rewrite (proj2 (Z.ltb_lt _ _)); [done|].
  eapply Z.le_lt_trans; [exact Hk|].
  assert (UnixMilli now / w + 2 ≤ (c + 2 ^ 64) / w)%Z; [|lia].
  rewrite <- (Z.div_add (UnixMilli now) 2 w) by lia.
  apply Z.div_le_mono; lia.
Qed.

(** A TTL of a hundred years in 2026. *)
Lemma wipe_witness :
  let window := 300000000000%Z in
  let ttl := 3153600000000000000%Z in
  let now := 1793500000000000000%Z in
  ((1000000 ≤ window < 2 ^ 63)%Z ∧ (0 ≤ now < ttl)%Z ∧ (ttl < 2 ^ 63)%Z) ∧
  ∃ s', runEviction window ttl now threeSeeds = Some s' ∧
    ∀ k, (k ≤ UnixMilli now / Milliseconds window + 1)%Z → s' !! k = None.
Proof.
  intros window ttl now.
  assert (H1 : (1000000 ≤ window < 2 ^ 63)%Z) by (subst window; lia).
  assert (H2 : (0 ≤ now < ttl)%Z) by (subst ttl now; lia).
  assert (H3 : (ttl < 2 ^ 63)%Z) by (subst ttl; lia).
  split; [by repeat split|].
  exact (runEviction_with_cutoff_before_the_epoch_wipes window ttl now threeSeeds H1 H2 H3).
Defined.

End EvictionProperties.

(** ** The hub over time *)

Section HubRunProperties.

Import Statepb Hub HubRun.

(** In a coherent hub the registered clients are open. *)
Lemma coherent_registered_open st : coherent st → registered_open st.
Proof.
  intros [Hrec Hch] x Hx. destruct (Hrec x Hx) as [c Hc]. exists c. split; [done|].
  by apply (Hch x c Hc).
Qed.

(** A new hub is coherent. *)
Lemma coherent_NewHub : coherent NewHub.
Proof. split; [by intros x ?%not_elem_of_empty|]. intros x c. cbn. by rewrite lookup_empty. Qed.

(** Registration keeps a hub coherent: the new record is at a fresh address. *)
Lemma coherent_Register st st' client :
  coherent st → Register st = Some (st', client) → coherent st'.
Proof.
  unfold Register, Run. cbn. intros [Hrec Hch] [= <- <-].
  pose proof (is_fresh (dom (mem st))) as Hf.
  set (p := fresh (dom (mem st))) in *.
  assert (Hp : p ∉ clients st).
  { intros [c Hc]%Hrec. apply Hf, elem_of_dom. eauto. }
  split; cbn.
  - intros x [->%elem_of_singleton|Hx]%elem_of_union.
    + rewrite lookup_insert_eq. eauto.
    + rewrite lookup_insert_ne by (intros <-; done). by apply Hrec.
  - intros x c. destruct (decide (x = p)) as [->|Hne].
    + rewrite lookup_insert_eq. intros [= <-]. cbn. unfold sendBuffer.
      split; [done|]. split; [lia|]. split; [set_solver|done].
    + rewrite lookup_insert_ne by done. intros Hc.
      destruct (Hch x c Hc) as (? & ? & Hiff). split; [done|]. split; [done|].
      rewrite Hiff. set_solver.
Qed.

(** So does unregistration. *)
Lemma coherent_Unregister st st' client :
  coherent st → Unregister st client = Some st' → coherent st'.
Proof.
  unfold Unregister, Run. intros Hco H. case_decide as Hin; [|by inversion H; subst].
  destruct Hco as [Hrec Hch]. destruct (Hrec client Hin) as [c Hc].
  destruct (Hch client c Hc) as (Hcap & Hlen & Hiff).
  rewrite Hc in H. cbn [mbind option_bind] in H. unfold Chan.close in H.
  rewrite (proj2 Hiff Hin) in H. cbn in H. inversion H; subst; clear H.
  split; cbn.
  - intros x [Hx Hne]%elem_of_difference. rewrite elem_of_singleton in Hne.
    rewrite lookup_insert_ne by done. by apply Hrec.
  - intros x c'. destruct (decide (x = client)) as [->|Hne].
    + rewrite lookup_insert_eq. intros [= <-]. cbn. split; [done|]. split; [done|].
      split; [done|set_solver].
    + rewrite lookup_insert_ne by done. intros Hc'.
      destruct (Hch x c' Hc') as (? & ? & Hiff'). split; [done|]. split; [done|].
      rewrite Hiff'. set_solver.
Qed.

(** So does a broadcast. *)
Lemma coherent_Broadcast st st' msg :
  coherent st → Broadcast st msg = Some st' → coherent st'.
Proof.
  intros Hco H. pose proof (coherent_registered_open st Hco) as Hopen.
  destruct (Broadcast_spec st msg Hopen) as (st'' & H' & Hout & Hin & Hsub).
  assert (st'' = st') as -> by congruence. destruct Hco as [Hrec Hch].
  split.
  - intros x Hx. destruct (Hin x (Hsub x Hx)) as (c & _ & _ & -> & _). eauto.
  - intros x c' Hc'. destruct (decide (x ∈ clients st)) as [Hx|Hx].
    + destruct (Hin x Hx) as (c & Hc & Hopenc & Hc2 & Hiff).
      assert (c' = afterOffer msg c) as -> by congruence.
      destruct (Hch x c Hc) as (Hcap & Hlen & _).
      rewrite Hiff. unfold afterOffer, hasRoom.
      destruct (length (Chan.buf (Send c)) <? Chan.cap (Send c))%nat eqn:E; cbn.
      * apply Nat.ltb_lt in E. rewrite length_app. cbn. split; [done|]. split; [lia|]. done.
      * split; [done|]. split; [done|]. split; intros; done.
    + rewrite Hout in Hc' by done. destruct (Hch x c' Hc') as (? & ? & Hiff).
      split; [done|]. split; [done|]. rewrite Hiff. split; [done|]. intros ?%Hsub. done.
Qed.

(** So does the traffic on the client channels. *)
Lemma coherent_env st st' : coherent st → env_step st st' → coherent st'.
Proof.
  intros [Hrec Hch] Hstep.
  destruct Hstep as [st client c v ch' Hc Hrecv|st client c resp ch' Hc Hsend];
    destruct (Hch client c Hc) as (Hcap & Hlen & Hiff).
  - assert (Hch' : Chan.cap ch' = sendBuffer ∧ length (Chan.buf ch') ≤ sendBuffer ∧
                    Chan.closed ch' = Chan.closed (Send c)).
    { unfold Chan.recv in Hrecv. destruct (Chan.buf (Send c)) eqn:E; [done|].
      inversion Hrecv; subst; cbn in *. split; [done|]. split; [lia|done]. }
    destruct Hch' as (? & ? & Hcl). split; cbn.
    + intros x Hx. destruct (decide (x = client)) as [->|Hne];
        [rewrite lookup_insert_eq|rewrite lookup_insert_ne by done]; eauto.
    + intros x c'. destruct (decide (x = client)) as [->|Hne].
      * rewrite lookup_insert_eq. intros [= <-]. cbn. by rewrite Hcl.
      * rewrite lookup_insert_ne by done. apply Hch.
  - assert (Hch' : Chan.cap ch' = sendBuffer ∧ length (Chan.buf ch') ≤ sendBuffer ∧
                    Chan.closed ch' = Chan.closed (Send c)).
    { unfold Chan.trySend in Hsend. destruct (Chan.closed (Send c)) eqn:Ecl; [done|].
      destruct (_ <? _)%nat eqn:E; [|done]. apply Nat.ltb_lt in E.
      inversion Hsend; subst; cbn in *. rewrite length_app. cbn. split; [done|]. split; [lia|done]. }
    destruct Hch' as (? & ? & Hcl). split; cbn.
    + intros x Hx. destruct (decide (x = client)) as [->|Hne];
        [rewrite lookup_insert_eq|rewrite lookup_insert_ne by done]; eauto.
    + intros x c'. destruct (decide (x = client)) as [->|Hne].
      * rewrite lookup_insert_eq. intros [= <-]. cbn. by rewrite Hcl.
      * rewrite lookup_insert_ne by done. apply Hch.
Qed.

(** Every state a hub reaches is coherent. *)
Lemma reachable_is_coherent st : reachable st → coherent st.
Proof.
  induction 1; eauto using coherent_NewHub, coherent_Register, coherent_Unregister,
    coherent_Broadcast, coherent_env.
Qed.

(** X10: in every state the hub reaches, each registered client has a
    record, and each client record has a queue of capacity 256 holding at
    most 256 messages that is open exactly while the client is registered:
    the hub closes the queue of every client it removes, and of no other. *)
Theorem hub_queues_open_exactly_while_registered (st : State) :
  reachable st →
  (∀ client, client ∈ clients st → is_Some (mem st !! client)) ∧
  (∀ client c, mem st !! client = Some c →
     Chan.cap (Send c) = sendBuffer ∧
     length (Chan.buf (Send c)) ≤ sendBuffer ∧
     (Chan.closed (Send c) = false ↔ client ∈ clients st)).
Proof. apply reachable_is_coherent. Qed.

(** The two clients of the broadcast test. *)
Lemma hub_queues_witness :
  reachable twoClients ∧
  ∀ client c, mem twoClients !! client = Some c →
     Chan.cap (Send c) = sendBuffer ∧
     length (Chan.buf (Send c)) ≤ sendBuffer ∧
     (Chan.closed (Send c) = false ↔ client ∈ clients twoClients).
Proof.
  split; [exact twoClients_reachable|].
  exact (proj2 (hub_queues_open_exactly_while_registered twoClients twoClients_reachable)).
Defined.

(** What the loop does with an unregister request on a coherent hub. *)
Lemma Unregister_spec st client :
  coherent st →
  ∃ st', Unregister st client = Some st' ∧
    (client ∉ clients st') ∧
    clients st' = clients st ∖ {[client]} ∧
    (client ∉ clients st → st' = st) ∧
    (∀ c, mem st !! client = Some c →
       ∃ c', mem st' !! client = Some c' ∧ Chan.closed (Send c') = true ∧
             Chan.buf (Send c') = Chan.buf (Send c)) ∧
    (∀ other, other ≠ client → mem st' !! other = mem st !! other) ∧
    Unregister st' client = Some st'.
Proof.
  intros [Hrec Hch]. unfold Unregister, Run.
  destruct (decide (client ∈ clients st)) as [Hin|Hin].
  - destruct (Hrec client Hin) as [c Hc].
    destruct (Hch client c Hc) as (Hcap & Hlen & Hiff).
    rewrite Hc. cbn [mbind option_bind]. unfold Chan.close.
    rewrite (proj2 Hiff Hin). cbn [mbind option_bind].
    eexists. split; [done|]. cbn. split; [set_solver|]. split; [done|].
    split; [done|]. split; [|split].
    + intros c0 Hc0. assert (c0 = c) as -> by congruence.
      rewrite lookup_insert_eq. eauto.
    + intros other Hne. by rewrite lookup_insert_ne.
    + rewrite decide_False by set_solver. done.
  - exists st. split; [done|]. split; [done|]. split; [set_solver|]. split; [done|].
    split; [|split].
    + intros c Hc. exists c. split; [done|]. split; [|done].
      destruct (Hch client c Hc) as (_ & _ & Hiff).
      destruct (Chan.closed (Send c)); [done|]. exfalso. by apply Hin, Hiff.
    + done.
    + rewrite decide_False by done. done.
Qed.

(** X11: in every state the hub reaches, an unregister request runs to its
    end without a panic. Afterwards the client is not registered and its
    queue, if it has one, is closed with the buffered messages untouched; no
    other client is touched; for a client that was not registered (never
    added, already removed, or dropped by a broadcast) nothing changes at
    all, so a second unregister request is harmless. *)
Theorem Unregister_twice_is_harmless (st : State) (client : ptr) :
  reachable st →
  ∃ st', Unregister st client = Some st' ∧
    (client ∉ clients st') ∧
    clients st' = clients st ∖ {[client]} ∧
    (client ∉ clients st → st' = st) ∧
    (∀ c, mem st !! client = Some c →
       ∃ c', mem st' !! client = Some c' ∧ Chan.closed (Send c') = true ∧
             Chan.buf (Send c') = Chan.buf (Send c)) ∧
    (∀ other, other ≠ client → mem st' !! other = mem st !! other) ∧
    Unregister st' client = Some st'.
Proof. intros Hco%reachable_is_coherent. by apply Unregister_spec. Qed.

(** Unregistering the first client of the broadcast test twice. *)
Lemma Unregister_witness :
  reachable twoClients ∧
  ∃ st', Unregister twoClients 1%positive = Some st' ∧ Unregister st' 1%positive = Some st'.
Proof.
  split; [exact twoClients_reachable|].
  destruct (Unregister_twice_is_harmless twoClients 1%positive twoClients_reachable)
    as (st' & H1 & _ & _ & _ & _ & _ & H2).
  exists st'. split; [exact H1|exact H2].
Defined.

(** A run of broadcasts on a coherent hub reaches a registered client with
    room for all of them, in order. *)
Lemma broadcastAll_room msgs : ∀ st client c,
  coherent st → client ∈ clients st → mem st !! client = Some c →
  length (Chan.buf (Send c)) + length msgs ≤ sendBuffer →
  ∃ st', broadcastAll st msgs = Some st' ∧ coherent st' ∧
    clients st' ⊆ clients st ∧ client ∈ clients st' ∧
    mem st' !! client =
      Some {| Send := {| Chan.buf := Chan.buf (Send c) ++ msgs;
                         Chan.cap := sendBuffer; Chan.closed := false |} |}.
Proof.
  induction msgs as [|msg rest IH]; intros st client c Hco Hin Hc Hlen.
  - exists st. split; [done|]. split; [done|]. split; [done|]. split; [done|].
    rewrite Hc, app_nil_r. destruct Hco as [_ Hch].
    destruct (Hch client c Hc) as (Hcap & _ & Hiff). apply Hiff in Hin.
    destruct c as [[b n cl]]. cbn in *. by subst.
  - cbn [length] in Hlen.
    destruct (Broadcast_spec st msg (coherent_registered_open st Hco))
      as (st1 & Hb & Hout & Hin1 & Hsub).
    destruct (Hin1 client Hin) as (c0 & Hc0 & Hopen & Hc1 & Hiff).
    assert (c0 = c) as -> by congruence.
    pose proof Hco as [_ Hch]. destruct (Hch client c Hc) as (Hcap & _ & _).
    assert (Hroom : hasRoom c = true).
    { unfold hasRoom. apply Nat.ltb_lt. rewrite Hcap. lia. }
    unfold afterOffer in Hc1. rewrite Hroom in Hc1.
    destruct (IH st1 client _ (coherent_Broadcast st st1 msg Hco Hb) (proj2 Hiff Hroom) Hc1)
      as (st' & Hrun & Hco' & Hsub' & Hin' & Hmem').
    { cbn. rewrite length_app. cbn. lia. }
    exists st'. split; [cbn [broadcastAll]; rewrite Hb; cbn; done|].
    split; [done|]. split; [set_solver|]. split; [done|].
    rewrite Hmem'. cbn. by rewrite <- app_assoc.
Qed.

(** X12: a registered client whose queue has room for a run of broadcasts
    gets all of them, in the order they were broadcast, behind what its
    queue held; it stays registered and open, and the run registers
    nobody. *)
Theorem broadcasts_arrive_in_order (st : State) (msgs : list SyncResponse)
    (client : ptr) (c : Client) :
  reachable st → client ∈ clients st → mem st !! client = Some c →
  length (Chan.buf (Send c)) + length msgs ≤ sendBuffer →
  ∃ st', broadcastAll st msgs = Some st' ∧
    clients st' ⊆ clients st ∧ client ∈ clients st' ∧
    mem st' !! client =
      Some {| Send := {| Chan.buf := Chan.buf (Send c) ++ msgs;
                         Chan.cap := sendBuffer; Chan.closed := false |} |}.
Proof.
  intros Hco%reachable_is_coherent Hin Hc Hlen.
  destruct (broadcastAll_room msgs st client c Hco Hin Hc Hlen)
    as (st' & ? & ? & ? & ? & ?). eauto.
Qed.

(** Two broadcasts to the clients of the broadcast test. *)
Lemma broadcasts_witness :
  let msgs := [ {| Seed := 1; Buckets := [] |}; {| Seed := 2; Buckets := [] |} ] in
  (reachable twoClients ∧ 2%positive ∈ clients twoClients ∧
   mem twoClients !! 2%positive = Some {| Send := Chan.make sendBuffer |} ∧
   length (Chan.buf (Chan.make (A := SyncResponse) sendBuffer)) + length msgs ≤ sendBuffer) ∧
  ∃ st', broadcastAll twoClients msgs = Some st' ∧
    mem st' !! 2%positive =
      Some {| Send := {| Chan.buf := [] ++ msgs; Chan.cap := sendBuffer;
                         Chan.closed := false |} |}.
Proof.
  intros msgs.
  assert (H1 : 2%positive ∈ clients twoClients) by (vm_compute; set_solver).
  assert (H2 : mem twoClients !! 2%positive = Some {| Send := Chan.make sendBuffer |})
    by (vm_compute; reflexivity).
  assert (H3 : length (Chan.buf (Send {| Send := Chan.make sendBuffer |})) + length msgs
               ≤ sendBuffer) by (vm_compute; lia).
  split; [split; [exact twoClients_reachable|split; [exact H1|split; [exact H2|exact H3]]]|].
  destruct (broadcasts_arrive_in_order twoClients msgs 2%positive _
              twoClients_reachable H1 H2 H3) as (st' & Hb & _ & _ & Hm).
  exists st'. split; [exact Hb|exact Hm].
Defined.

End HubRunProperties.

(** ** The state client over a burst *)

Section ClientRunProperties.

Import Statepb StateClient ClientRun.

(** One producer call, as a truncation. *)
Lemma enqueue_take c req :
  length (sendCh c) ≤ sendChCap →
  addr (enqueue c req) = addr c ∧
  sendCh (enqueue c req) = take sendChCap (sendCh c ++ [req]).
Proof.
  intros H. unfold enqueue. destruct (length (sendCh c) <? sendChCap) eqn:E.
  - apply Nat.ltb_lt in E. cbn [sendCh addr]. split; [done|].
    rewrite take_ge; [done|]. rewrite length_app. cbn [length]. lia.
  - apply Nat.ltb_ge in E. split; [done|].
    rewrite take_app_le by lia. by rewrite take_ge by lia.
Qed.

(** Both producers enqueue their request. *)
Lemma offer_enqueue c req : offer c req = enqueue c req.
Proof. by destruct req. Qed.

(** X13: a burst of producer calls with nothing taken off the queue in
    between keeps the oldest requests: the queue afterwards is what it held
    followed by the requests of the burst, cut off at the capacity of 1024;
    what does not fit is dropped, newest first, and the address is
    unchanged. *)
Theorem burst_keeps_the_oldest_requests (c : Client) (reqs : list SyncRequest) :
  length (sendCh c) ≤ sendChCap →
  addr (offerAll c reqs) = addr c ∧
  sendCh (offerAll c reqs) = take sendChCap (sendCh c ++ reqs).
Proof.
  unfold offerAll. revert c. induction reqs as [|req rest IH]; intros c H.
  - cbn [foldl]. split; [done|]. rewrite app_nil_r. by rewrite take_ge.
  - cbn [foldl]. rewrite offer_enqueue.
    destruct (enqueue_take c req H) as [Ha Hs].
    destruct (IH (enqueue c req)) as [Ha' Hs'].
    { by apply enqueue_bounded. }
    split; [congruence|]. rewrite Hs', Hs.
    destruct (decide (length (sendCh c) < sendChCap)) as [Hlt|Hge].
    + rewrite (take_ge (sendCh c ++ [req])) by (rewrite length_app; cbn [length]; lia).
      by rewrite <- app_assoc.
    + rewrite (take_app_le (sendCh c) [req]) by lia.
      rewrite !take_app_le by (rewrite ?length_take; lia).
      by rewrite take_take, Nat.min_id.
Qed.

(** A saturated client drops a whole burst. *)
Lemma burst_witness :
  length (sendCh saturated) ≤ sendChCap ∧
  sendCh (offerAll saturated [StateRequest 10; DeltaUpdate 10 []]) =
    take sendChCap (sendCh saturated ++ [StateRequest 10; DeltaUpdate 10 []]).
Proof.
  assert (H : length (sendCh saturated) ≤ sendChCap) by (vm_compute; lia).
  split; [exact H|].
  exact (proj2 (burst_keeps_the_oldest_requests saturated
                  [StateRequest 10; DeltaUpdate 10 []] H)).
Defined.

End ClientRunProperties.

(** ** The tracker from its construction on *)

Section TrackerRunProperties.

Import Statepb Tracker TrackerRun.

Context {T R1 R2 : Type}.
Context `{!Request.Tracker FairnessTrackerConfig T R1 R2}.

Implicit Types ft : FairnessTracker T.

(** X14: [NewFairnessTrackerWithClockAndTicker] returns its nil-config error
    for a nil configuration, and divides by zero (a run-time panic, not an
    error) exactly when the rotation frequency is shorter than a
    millisecond in absolute value, whatever the clock reads. *)
Theorem sub_millisecond_rotation_divides_by_zero (cfg : FairnessTrackerConfig) (now : Z) :
  (- 2 ^ 63 ≤ RotationFrequency cfg < 2 ^ 63)%Z →
  (NewFairnessTrackerWithClockAndTicker (Some cfg) now = inl DivideByZero ↔
   (-1000000 < RotationFrequency cfg < 1000000)%Z) ∧
  NewFairnessTrackerWithClockAndTicker (T := T) None now = inl NilConfig.
Proof.
  intros Hr. split; [|done].
  rewrite <- (uint64_Milliseconds_zero _ Hr).
  unfold NewFairnessTrackerWithClockAndTicker, windowAt.
  destruct (uint64 (Milliseconds (RotationFrequency cfg)) =? 0)%Z eqn:E.
  - apply Z.eqb_eq in E. done.
  - apply Z.eqb_neq in E. split; [|done]. by repeat case_match.
Qed.

Section SeedsFromConstruction.

Context `{!Request.TrackerSeed FairnessTrackerConfig T R1 R2}.

(** What the constructor returns when it returns a tracker. *)
Lemma New_inr cfg now ft :
  NewFairnessTrackerWithClockAndTicker (Some cfg) now = inr ft →
  ∃ w, windowAt (Milliseconds (RotationFrequency cfg)) now = Some w ∧
    trackerConfig ft = cfg ∧
    windowMs ft = Milliseconds (RotationFrequency cfg) ∧
    Request.GetID (mainStructure ft) = w ∧
    Request.GetID (secondaryStructure ft) = uint64 (w + 1) ∧
    stateClient ft =
      if decide (StateServiceAddress cfg = "") then None
      else Some {| StateClient.addr := StateServiceAddress cfg;
                   StateClient.sendCh := [StateRequest w; StateRequest (uint64 (w + 1))] |}.
Proof.
  unfold NewFairnessTrackerWithClockAndTicker.
  destruct (windowAt _ now) as [w|] eqn:Ew; [|done].
  destruct (createStructure cfg w _) as [st1|] eqn:E1; [|done].
  destruct (createStructure cfg (uint64 (w + 1)) _) as [st2|] eqn:E2; [|done].
  intros [= <-]. exists w. cbn.
  apply createStructure_GetID in E1, E2.
  repeat split; try done. by case_decide.
Qed.

(** X15: a tracker the constructor returns keeps the configuration it was
    given; its main structure has the seed of the window the clock is in and
    its secondary structure the seed after it; with a state-service address
    configured, the constructor has offered the state client's queue a
    full-state request for each of the two seeds, the current one first
    (nothing taken off meanwhile, the queue holds exactly these two), and
    without one there is no state client. *)
Theorem new_tracker_covers_current_and_next_window (cfg : FairnessTrackerConfig) (now : Z) ft :
  NewFairnessTrackerWithClockAndTicker (Some cfg) now = inr ft →
  ∃ w, windowAt (Milliseconds (RotationFrequency cfg)) now = Some w ∧
    trackerConfig ft = cfg ∧
    seeds ft = (w, uint64 (w + 1)) ∧
    stateClient ft =
      if decide (StateServiceAddress cfg = "") then None
      else Some {| StateClient.addr := StateServiceAddress cfg;
                   StateClient.sendCh := [StateRequest w; StateRequest (uint64 (w + 1))] |}.
Proof.
  intros (w & Hw & Hc & _ & Hm & Hs & Hq)%New_inr. exists w. unfold seeds.
  by rewrite Hm, Hs.
Qed.

(** A tick in the window after the main structure's: the secondary becomes
    main, and the new secondary has the seed after it. *)
Lemma rotate_stepping cfg ft now q :
  never_fails cfg → trackerConfig ft = cfg →
  (0 ≤ q)%Z →
  Request.GetID (secondaryStructure ft) = uint64 (q + 1) →
  windowAt (windowMs ft) now = Some (q + 1)%Z →
  ∃ ft', rotate ft now = Some ft' ∧ trackerConfig ft' = cfg ∧
    windowMs ft' = windowMs ft ∧
    Request.GetID (mainStructure ft') = (q + 1)%Z ∧
    Request.GetID (secondaryStructure ft') = uint64 (q + 1 + 1).
Proof.
  intros Hnf Hcfg Hq Hsec Hwin. unfold rotate, rotationSeed. rewrite Hwin.
  destruct (createStructure (trackerConfig ft) (uint64 (q + 1 + 1)) (stateClient ft))
    as [s|] eqn:E.
  - eexists. split; [done|]. cbn. split; [done|]. split; [done|].
    apply createStructure_GetID in E. split; [|done].
    rewrite Hsec. apply uint64_small.
    apply windowAt_Some in Hwin as [Hw Heq].
    pose proof (window_range (windowMs ft) now Hw). lia.
  - exfalso. unfold createStructure in E. rewrite Hcfg in E.
    destruct (Hnf (uint64 (q + 1 + 1))) as [st Hst]. rewrite Hst in E.
    by destruct (stateClient ft).
Qed.

(** A run of such ticks. *)
Lemma rotations_stepping cfg nows : ∀ ft q,
  never_fails cfg → trackerConfig ft = cfg →
  (0 ≤ q)%Z →
  Request.GetID (mainStructure ft) = q →
  Request.GetID (secondaryStructure ft) = uint64 (q + 1) →
  stepping (windowMs ft) q nows →
  ∃ ft', rotations ft nows = Some ft' ∧
    seeds ft' = ((q + Z.of_nat (length nows))%Z, uint64 (q + Z.of_nat (length nows) + 1)).
Proof.
  induction nows as [|now rest IH]; intros ft q Hnf Hcfg Hq Hm Hs Hstep.
  - exists ft. split; [done|]. unfold seeds. cbn [length]. rewrite Hm, Hs.
    change (Z.of_nat 0) with 0%Z. by rewrite Z.add_0_r.
  - destruct Hstep as [Hwin Hrest].
    destruct (rotate_stepping cfg ft now q Hnf Hcfg Hq Hs Hwin)
      as (ft1 & Hrot & Hcfg1 & Hw1 & Hm1 & Hs1).
    destruct (IH ft1 (q + 1)%Z Hnf Hcfg1 ltac:(lia) Hm1 Hs1) as (ft' & Hrots & Hseeds).
    { by rewrite Hw1. }
    exists ft'. split; [cbn [rotations]; by rewrite Hrot|].
    rewrite Hseeds. cbn [length]. rewrite Nat2Z.inj_succ. f_equal; [lia|f_equal; lia].
Qed.

(** X16: when structures can always be built and every tick is handled in
    the window right after the previous one, all rotations go through, and
    after them the main structure has the seed of the window of the last
    tick and the secondary structure the seed after it. *)
Theorem ticks_one_window_apart_track_the_clock
    (cfg : FairnessTrackerConfig) (now : Z) (nows : list Z) ft (q : Z) :
  never_fails cfg →
  NewFairnessTrackerWithClockAndTicker (Some cfg) now = inr ft →
  windowAt (windowMs ft) now = Some q →
  stepping (windowMs ft) q nows →
  ∃ ft', rotations ft nows = Some ft' ∧
    seeds ft' = ((q + Z.of_nat (length nows))%Z, uint64 (q + Z.of_nat (length nows) + 1)).
Proof.
  intros Hnf (w & Hw & Hc & Hwm & Hm & Hs & _)%New_inr Hq Hstep.
  rewrite Hwm in Hq. assert (w = q) as -> by congruence.
  apply (rotations_stepping cfg nows ft q); try done.
  apply windowAt_Some in Hw as [Hw0 ->].
  pose proof (window_range _ now Hw0). lia.
Qed.

(** X17: a state update received by a newly built tracker is applied to the
    main structure when it carries the seed of the current window, to the
    secondary structure when it carries the seed after it, and is ignored
    otherwise; it never changes the configuration or the state client. *)
Theorem state_update_reaches_the_structure_of_its_seed
    (cfg : FairnessTrackerConfig) (now : Z) ft (resp : SyncResponse) :
  NewFairnessTrackerWithClockAndTicker (Some cfg) now = inr ft →
  ∃ w, windowAt (Milliseconds (RotationFrequency cfg)) now = Some w ∧
    let ft' := onStateUpdate ft resp in
    trackerConfig ft' = cfg ∧ stateClient ft' = stateClient ft ∧
    (Seed resp = w →
       mainStructure ft' = applyUpdate (mainStructure ft) (Buckets resp) ∧
       secondaryStructure ft' = secondaryStructure ft) ∧
    (Seed resp = uint64 (w + 1) →
       mainStructure ft' = mainStructure ft ∧
       secondaryStructure ft' = applyUpdate (secondaryStructure ft) (Buckets resp)) ∧
    (Seed resp ≠ w → Seed resp ≠ uint64 (w + 1) → ft' = ft).
Proof.
  intros (w & Hw & Hc & _ & Hm & Hs & _)%New_inr. exists w. split; [done|].
  assert (Hne : w ≠ uint64 (w + 1)).
  { pose proof Hw as [Hw0 ->]%windowAt_Some.
    pose proof (window_range _ now Hw0) as Hr. set (q := (_ / _)%Z) in *.
    destruct (decide (q + 1 < 2 ^ 64)%Z).
    - rewrite uint64_small by lia. lia.
    - assert (q + 1 = 2 ^ 64)%Z as -> by lia. unfold uint64. rewrite Z.mod_same by lia. lia. }
  unfold onStateUpdate. rewrite Hm, Hs. cbn zeta.
  destruct (decide (w = Seed resp)) as [E1|E1];
    [|destruct (decide (uint64 (w + 1) = Seed resp)) as [E2|E2]];
    cbn; repeat split; try done; intros; congruence.
Qed.

End SeedsFromConstruction.

End TrackerRunProperties.

(** ** The tracker over the stand-in structure, from its construction on *)

Section StandinRunProperties.

Import Statepb Tracker TrackerRun Standin.

(** A rotation frequency of 999999 ns. *)
Lemma sub_millisecond_witness :
  let cfg := {| M := 10; L := 2; Pi := 0.1; Pd := 0.05; Lambda := 0;
                RotationFrequency := 999999; IncludeStats := true;
                FinalProbabilityFunction := maxProbability;
                StateServiceAddress := "" |} in
  (- 2 ^ 63 ≤ RotationFrequency cfg < 2 ^ 63)%Z ∧
  NewFairnessTrackerWithClockAndTicker (T := Structure) (Some cfg) 1000 = inl DivideByZero.
Proof.
  intros cfg.
  assert (H : (- 2 ^ 63 ≤ RotationFrequency cfg < 2 ^ 63)%Z) by (cbn; lia).
  split; [exact H|].
  apply (proj1 (sub_millisecond_rotation_divides_by_zero (T := Structure) cfg 1000 H)).
  cbn. lia.
Defined.

(** [localTracker], built at 1000 ms with a window of 100 ms, has seeds 10 and 11. *)
Lemma new_tracker_witness :
  NewFairnessTrackerWithClockAndTicker (Some localConfig) 1000 = inr localTracker ∧
  seeds localTracker = (10, 11)%Z.
Proof.
  split; [exact localTracker_built|].
  destruct (new_tracker_covers_current_and_next_window localConfig 1000 localTracker
              localTracker_built) as (w & Hw & _ & Hs & _).
  rewrite Hs. vm_compute in Hw. injection Hw as <-. reflexivity.
Defined.

(** The stand-in builds a structure for [localConfig], whatever the seed. *)
Lemma localConfig_never_fails : never_fails (T := Structure) localConfig.
Proof. intros id. cbn. eauto. Qed.

(** Ticks at 1100, 1250 and 1399 ms: windows 11, 12 and 13. *)
Lemma ticks_witness :
  (never_fails (T := Structure) localConfig ∧
   NewFairnessTrackerWithClockAndTicker (Some localConfig) 1000 = inr localTracker ∧
   windowAt (windowMs localTracker) 1000 = Some 10%Z ∧
   stepping (windowMs localTracker) 10 [1100; 1250; 1399]%Z) ∧
  ∃ ft', rotations localTracker [1100; 1250; 1399]%Z = Some ft' ∧
    seeds ft' = (13, 14)%Z.
Proof.
  assert (H1 : windowAt (windowMs localTracker) 1000 = Some 10%Z) by (vm_compute; reflexivity).
  assert (H2 : stepping (windowMs localTracker) 10 [1100; 1250; 1399]%Z).
  { cbn [stepping]. repeat split; vm_compute; reflexivity. }
  split; [split; [exact localConfig_never_fails|split; [exact localTracker_built|split;
            [exact H1|exact H2]]]|].
  exact (ticks_one_window_apart_track_the_clock localConfig 1000 [1100; 1250; 1399]%Z
           localTracker 10 localConfig_never_fails localTracker_built H1 H2).
Defined.

(** An update for seed 11 leaves the configuration of [localTracker] alone. *)
Lemma state_update_witness :
  NewFairnessTrackerWithClockAndTicker (Some localConfig) 1000 = inr localTracker ∧
  trackerConfig (onStateUpdate localTracker {| Seed := 11; Buckets := [] |}) = localConfig.
Proof.
  split; [exact localTracker_built|].
  destruct (state_update_reaches_the_structure_of_its_seed localConfig 1000 localTracker
              {| Seed := 11; Buckets := [] |} localTracker_built) as (w & _ & H & _).
  exact H.
Defined.

End StandinRunProperties.

(** ** The state service *)

Section ServiceProperties.

Import Statepb Hub HubRun StateService ServiceRun.

(** A run of broadcasts leads from reachable states to reachable states. *)
Lemma reachable_broadcastAll msgs : ∀ st st',
  reachable st → broadcastAll st msgs = Some st' → reachable st'.
Proof.
  induction msgs as [|msg rest IH]; intros st st' Hr H.
  - cbn in H. by inversion H; subst.
  - cbn [broadcastAll] in H. destruct (Broadcast st msg) as [st1|] eqn:E; [|done].
    cbn in H. eapply IH; [|done]. by eapply reach_Broadcast.
Qed.

(** A run of broadcasts keeps a hub coherent, registers nobody, and keeps
    every record. *)
Lemma broadcastAll_coherent msgs : ∀ st st',
  coherent st → broadcastAll st msgs = Some st' →
  clients st' ⊆ clients st ∧ coherent st' ∧
  ∀ x, is_Some (mem st !! x) → is_Some (mem st' !! x).
Proof.
  induction msgs as [|m l IH]; intros st st' Hco H.
  - cbn in H. inversion H; subst. done.
  - cbn [broadcastAll] in H.
    destruct (Broadcast_spec st m (coherent_registered_open st Hco))
      as (st1 & Hb1 & Hout & Hin & Hsub).
    rewrite Hb1 in H. cbn in H.
    destruct (IH st1 st' (coherent_Broadcast st st1 m Hco Hb1) H) as (Hs & Hco' & Hk).
    split; [set_solver|]. split; [done|]. intros x Hx. apply Hk.
    destruct (decide (x ∈ clients st)) as [Hxin|Hxin].
    + destruct (Hin x Hxin) as (c & _ & _ & -> & _). eauto.
    + by rewrite Hout.
Qed.

(** A run of [ApplyDelta] calls returns one bucket per call. *)
Lemma applyAll_length ds : ∀ s, length (Store.applyAll s ds).2 = length ds.
Proof.
  induction ds as [|d ds IH]; intros s; [done|].
  cbn [Store.applyAll]. destruct (Store.ApplyDelta _ _ _ _ _ _) as [s1 b].
  specialize (IH s1). destruct (Store.applyAll s1 ds) as [s2 bs]. cbn in *. by rewrite IH.
Qed.

(** One delta update: the deltas applied in order, each returned bucket
    broadcast in the same order. *)
Lemma handleDeltaUpdate_spec seed deltas : ∀ sv,
  reachable (hub sv) →
  ∃ sv', handleDeltaUpdate seed deltas sv = Some sv' ∧
    store sv' = (Store.applyAll (store sv) (calls seed deltas)).1 ∧
    broadcastAll (hub sv)
      (responses seed (Store.applyAll (store sv) (calls seed deltas)).2) = Some (hub sv') ∧
    reachable (hub sv').
Proof.
  induction deltas as [|delta rest IH]; intros sv Hr.
  - exists sv. by repeat split.
  - cbn [handleDeltaUpdate]. unfold applyAndBroadcast.
    cbn [calls fmap list_fmap Store.applyAll Store.d_seed Store.d_row Store.d_col
         Store.d_prob Store.d_ts].
    destruct (Store.ApplyDelta (store sv) seed (delta_RowId delta) (delta_ColId delta)
                (DeltaProb delta) (delta_LastUpdateTimeMs delta)) as [s1 b] eqn:E.
    destruct (Run_never_panics (hub sv) (broadcast {| Seed := seed; Buckets := [b] |}) Hr)
      as [h1 Hb].
    change (Run (hub sv) (broadcast ?m)) with (Broadcast (hub sv) m) in Hb.
    rewrite Hb.
    destruct (IH {| store := s1; hub := h1 |}) as (sv' & Hh & Hs & Hbr & Hr').
    { cbn. by eapply reach_Broadcast. }
    exists sv'. split; [done|]. cbn [store hub] in *.
    fold (calls seed rest).
    destruct (Store.applyAll s1 (calls seed rest)) as [s2 bs] eqn:E2. cbn [fst snd] in *.
    split; [done|]. split; [|done].
    cbn [responses fmap list_fmap broadcastAll]. rewrite Hb. cbn. exact Hbr.
Qed.

(** X18: handling a delta update on a service whose hub is in a reachable
    state never panics. It leaves the store as the [ApplyDelta] calls for
    its deltas, in order, leave it, and the hub as the broadcasts of the
    returned buckets, one response per delta and in the same order, leave
    it; nobody is registered by it, and a registered client with room for
    one response per delta stays registered and has exactly these
    responses appended to its queue. *)
Theorem delta_update_applies_then_broadcasts (sv : Service) (seed : Z)
    (deltas : list BucketDelta) :
  reachable (hub sv) →
  let applied := Store.applyAll (store sv) (calls seed deltas) in
  ∃ sv', handleDeltaUpdate seed deltas sv = Some sv' ∧
    store sv' = applied.1 ∧
    broadcastAll (hub sv) (responses seed applied.2) = Some (hub sv') ∧
    clients (hub sv') ⊆ clients (hub sv) ∧
    ∀ client c, client ∈ clients (hub sv) → mem (hub sv) !! client = Some c →
      length (Chan.buf (Send c)) + length deltas ≤ sendBuffer →
      client ∈ clients (hub sv') ∧
      mem (hub sv') !! client =
        Some {| Send := {| Chan.buf := Chan.buf (Send c) ++ responses seed applied.2;
                           Chan.cap := sendBuffer; Chan.closed := false |} |}.
Proof.
  intros Hr applied.
  destruct (handleDeltaUpdate_spec seed deltas sv Hr) as (sv' & Hh & Hs & Hb & Hr').
  fold applied in Hs, Hb.
  exists sv'. split; [done|]. split; [done|]. split; [done|].
  assert (Hlen : length (responses seed applied.2) = length deltas).
  { unfold responses, applied. rewrite length_fmap, applyAll_length.
    unfold calls. by rewrite length_fmap. }
  pose proof (reachable_is_coherent _ Hr) as Hco.
  split; [by apply (broadcastAll_coherent _ _ _ Hco Hb)|].
  intros client c Hin Hc Hroom.
    destruct (broadcastAll_room (responses seed applied.2) (hub sv) client c Hco Hin Hc)
      as (st' & Hb' & _ & _ & Hin' & Hm'); [lia|].
    assert (st' = hub sv') as -> by congruence. done.
Qed.

(** One delta handled for the two clients of the broadcast test. *)
Lemma delta_update_witness :
  let delta := {| delta_RowId := 0; delta_ColId := 3; DeltaProb := 0.5;
                  delta_LastUpdateTimeMs := 100 |} in
  reachable twoClients ∧
  ∃ sv', handleDeltaUpdate 7 [delta] {| store := ∅; hub := twoClients |} = Some sv' ∧
    store sv' = (Store.applyAll ∅ (calls 7 [delta])).1 ∧
    clients (hub sv') ⊆ clients twoClients.
Proof.
  intros delta. split; [exact twoClients_reachable|].
  destruct (delta_update_applies_then_broadcasts {| store := ∅; hub := twoClients |} 7 [delta]
              twoClients_reachable) as (sv' & H1 & H2 & _ & H3 & _).
  exists sv'. split; [exact H1|split; [exact H2|exact H3]].
Defined.

(** X19: a state request handled for a client the hub has removed (dropped by
    a broadcast that found its queue full, say) while the stream's context
    is live panics: the handler sends on the queue the hub has closed. *)
Theorem state_request_after_drop_panics (sv : Service) (client : ptr) (c : Client)
    (seed : Z) (pickSend : bool) :
  reachable (hub sv) → mem (hub sv) !! client = Some c → client ∉ clients (hub sv) →
  handleStateRequest sv client seed false pickSend = Panicked.
Proof.
  intros [_ Hch]%reachable_is_coherent Hc Hout.
  destruct (Hch client c Hc) as (_ & _ & Hiff).
  unfold handleStateRequest, Chan.trySend. rewrite Hc.
  destruct (Chan.closed (Send c)); [done|]. exfalso. by apply Hout, Hiff.
Qed.

(** The overrun hub is reached by one registration and 257 broadcasts. *)
Lemma overrun_reachable : reachable overrun.
Proof.
  apply (reachable_broadcastAll (replicate 257 {| Seed := 7; Buckets := [] |}) oneClient).
  - apply (reach_Register NewHub oneClient 1%positive); [apply reach_new|].
    vm_compute. reflexivity.
  - vm_compute. reflexivity.
Qed.

(** A state request by the dropped client of the overrun hub. *)
Lemma state_request_witness :
  (reachable overrun ∧ is_Some (mem overrun !! 1%positive) ∧ 1%positive ∉ clients overrun) ∧
  handleStateRequest {| store := ∅; hub := overrun |} 1%positive 7 false true = Panicked.
Proof.
  assert (H1 : ∃ c, mem overrun !! 1%positive = Some c) by (eexists; vm_compute; reflexivity).
  assert (H2 : 1%positive ∉ clients overrun) by (vm_compute; set_solver).
  split; [split; [exact overrun_reachable|split; [exact H1|exact H2]]|].
  destruct H1 as [c Hc].
  exact (state_request_after_drop_panics {| store := ∅; hub := overrun |} 1%positive c 7 true
           overrun_reachable Hc H2).
Defined.

(** X20: a state request handled for a registered client while the stream's
    context is live puts one response, the seed with what [GetSeed] lists
    for it, at the tail of that client's queue when the queue has room, and
    changes nothing else: not the store, not the set of clients, not
    another client's queue. When the queue is full the handler waits; it
    neither drops the response nor the client, and returns once the
    context is done. *)
Theorem state_request_answers_the_requester_only (sv : Service) (client : ptr)
    (c : Client) (seed : Z) (pickSend : bool) :
  reachable (hub sv) → client ∈ clients (hub sv) → mem (hub sv) !! client = Some c →
  let resp := {| Seed := seed; Buckets := Store.GetSeed (store sv) seed |} in
  (length (Chan.buf (Send c)) < sendBuffer →
     handleStateRequest sv client seed false pickSend =
       Continue {| store := store sv;
                   hub := {| clients := clients (hub sv);
                             mem := <[client := {| Send := Chan.push (Send c) resp |}]>
                                      (mem (hub sv)) |} |}) ∧
  (length (Chan.buf (Send c)) = sendBuffer →
     handleStateRequest sv client seed false pickSend = Blocked ∧
     handleStateRequest sv client seed true pickSend = Return sv).
Proof.
  intros [_ Hch]%reachable_is_coherent Hin Hc resp.
  destruct (Hch client c Hc) as (Hcap & Hlen & Hiff).
  unfold handleStateRequest, Chan.trySend. rewrite Hc, (proj2 Hiff Hin), Hcap.
  fold resp. split.
  - intros Hroom. by rewrite (proj2 (Nat.ltb_lt _ _) Hroom).
  - intros Hfull. rewrite (proj2 (Nat.ltb_ge _ _)) by lia. done.
Qed.

(** A state request for seed 2 by the first client of the broadcast test. *)
Lemma state_request_answer_witness :
  (reachable twoClients ∧ 1%positive ∈ clients twoClients ∧
   mem twoClients !! 1%positive = Some {| Send := Chan.make sendBuffer |} ∧
   length (Chan.buf (Chan.make (A := SyncResponse) sendBuffer)) < sendBuffer) ∧
  handleStateRequest {| store := Store.threeSeeds; hub := twoClients |} 1%positive 2 false true =
    Continue {| store := Store.threeSeeds;
                hub := {| clients := clients twoClients;
                          mem := <[1%positive :=
                                     {| Send := Chan.push (Chan.make sendBuffer)
                                          {| Seed := 2;
                                             Buckets := Store.GetSeed Store.threeSeeds 2 |} |}]>
                                   (mem twoClients) |} |}.
Proof.
  assert (H1 : 1%positive ∈ clients twoClients) by (vm_compute; set_solver).
  assert (H2 : mem twoClients !! 1%positive = Some {| Send := Chan.make sendBuffer |})
    by (vm_compute; reflexivity).
  assert (H3 : length (Chan.buf (Send {| Send := Chan.make sendBuffer |})) < sendBuffer)
    by (vm_compute; lia).
  split; [split; [exact twoClients_reachable|split; [exact H1|split; [exact H2|exact H3]]]|].
  exact (proj1 (state_request_answers_the_requester_only
                  {| store := Store.threeSeeds; hub := twoClients |} 1%positive _ 2 true
                  twoClients_reachable H1 H2) H3).
Defined.

(** The receive loop over a stream that submits deltas only. *)
Lemma serve_onlyDeltas client reqs : ∀ sv,
  reachable (hub sv) → onlyDeltas reqs = true →
  ∃ sv', serve sv client reqs = Return sv' ∧
    store sv' = (Store.applyAll (store sv) (allCalls reqs)).1 ∧
    reachable (hub sv') ∧
    clients (hub sv') ⊆ clients (hub sv) ∧
    ∀ x, is_Some (mem (hub sv) !! x) → is_Some (mem (hub sv') !! x).
Proof.
  induction reqs as [|req rest IH]; intros sv Hr Hod.
  - exists sv. by repeat split.
  - cbn [onlyDeltas forallb] in Hod. apply andb_prop in Hod as [Hreq Hrest].
    cbn [serve]. destruct req as [[seed deltas|seed]|]; [|done|].
    + cbn [handle].
      destruct (handleDeltaUpdate_spec seed deltas sv Hr) as (sv1 & Hh & Hs & Hb & Hr1).
      rewrite Hh.
      destruct (IH sv1 Hr1 Hrest) as (sv' & Hserve & Hs' & Hr' & Hsub & Hk).
      destruct (broadcastAll_coherent _ _ _ (reachable_is_coherent _ Hr) Hb)
        as (Hsub1 & _ & Hk1).
      exists sv'. split; [done|]. split; [|split; [done|split; [set_solver|by auto]]].
      rewrite Hs', Hs. unfold allCalls. cbn [mbind list_bind]. fold (allCalls rest).
      by rewrite applyAll_app.
    + cbn [handle]. destruct (IH sv Hr Hrest) as (sv' & Hserve & Hs' & Hr' & Hsub & Hk).
      exists sv'. by repeat split.
Qed.

(** X21: a stream that submits delta updates only (and requests of no known
    type), served with no other stream's request handled in between, is
    served to its end, also when its own broadcasts overrun its queue and
    the hub drops its client before the deferred [Unregister] runs: [Sync]
    returns, the store is what the [ApplyDelta] calls of all its deltas, in
    order, leave, the hub is in a reachable state with no client more than
    before, and the stream's own client is left with a closed queue. *)
Theorem delta_only_stream_ends_cleanly (sv : Service) (reqs : list (option SyncRequest)) :
  reachable (hub sv) → onlyDeltas reqs = true →
  let client := fresh (dom (mem (hub sv))) in
  ∃ sv', Sync sv reqs = Return sv' ∧
    store sv' = (Store.applyAll (store sv) (allCalls reqs)).1 ∧
    reachable (hub sv') ∧
    clients (hub sv') ⊆ clients (hub sv) ∧
    (client ∉ clients (hub sv')) ∧
    ∃ c, mem (hub sv') !! client = Some c ∧ Chan.closed (Send c) = true.
Proof.
  intros Hr Hod client. unfold Sync.
  destruct (Register (hub sv)) as [[h p]|] eqn:Hreg; [|by unfold Register in Hreg].
  assert (Hp : p = client ∧ clients h = {[client]} ∪ clients (hub sv) ∧
               is_Some (mem h !! client)).
  { unfold Register, Run in Hreg. cbn in Hreg. inversion Hreg; subst. cbn.
    split; [done|]. split; [done|]. fold client. rewrite lookup_insert_eq. eauto. }
  destruct Hp as (-> & Hcl & Hrec).
  assert (Hrh : reachable h) by (by eapply reach_Register).
  assert (Hfresh : client ∉ clients (hub sv)).
  { intros Hin. destruct (reachable_is_coherent _ Hr) as [Hre _].
    destruct (Hre client Hin) as [c Hc].
    apply (is_fresh (dom (mem (hub sv)))). apply elem_of_dom. eauto. }
  destruct (serve_onlyDeltas client reqs {| store := store sv; hub := h |} Hrh Hod)
    as (sv1 & Hserve & Hs & Hr1 & Hsub & Hk).
  rewrite Hserve. cbn [store hub] in *.
  destruct (Unregister_spec (hub sv1) client (reachable_is_coherent _ Hr1))
    as (h' & Hun & Hnot & Hcl' & _ & Hclosed & _ & _).
  rewrite Hun. eexists. split; [done|]. cbn [store hub].
  split; [done|]. split; [by eapply reach_Unregister|]. split; [set_solver|].
  split; [done|].
  destruct (Hk client Hrec) as [c1 Hc1].
  destruct (Hclosed c1 Hc1) as (c' & Hc' & Hcc & _). eauto.
Qed.

(** A stream of one delta update and one unknown request. *)
Lemma delta_only_witness :
  let reqs := [Some (DeltaUpdate 7 [ {| delta_RowId := 0; delta_ColId := 3;
                                        DeltaProb := 0.5;
                                        delta_LastUpdateTimeMs := 100 |} ]); None] in
  (reachable twoClients ∧ onlyDeltas reqs = true) ∧
  ∃ sv', Sync {| store := ∅; hub := twoClients |} reqs = Return sv' ∧
    store sv' = (Store.applyAll ∅ (allCalls reqs)).1.
Proof.
  intros reqs.
  assert (H : onlyDeltas reqs = true) by reflexivity.
  split; [split; [exact twoClients_reachable|exact H]|].
  destruct (delta_only_stream_ends_cleanly {| store := ∅; hub := twoClients |} reqs
              twoClients_reachable H) as (sv' & H1 & H2 & _).
  exists sv'. split; [exact H1|exact H2].
Defined.

End ServiceProperties.

(** ** The HTTP handlers *)

Section TransportProperties.

Import Statepb Transport.

Context {T R1 R2 Stats : Type}.
Context `{!Request.Tracker Tracker.FairnessTrackerConfig T R1 R2}.
Variable result_ShouldThrottle : R1 → bool.
Variable result_ResultStats : R1 → Stats.

Implicit Types t : Tracker.FairnessTracker T.

(** X22: the [/report] handler answers 405 exactly for a method other than
    POST, 200 exactly for a POST whose body decodes, names a client and
    gives the outcome as "success" or "failure", and 400 otherwise; it
    never answers 500. The tracker is touched only by a request answered
    200, and then by exactly one [ReportOutcome] call with the client's
    bytes and the parsed outcome. *)
Theorem report_changes_the_tracker_only_on_200 t (method : string)
    (body : option ReportRequest) :
  let '(t', status) := handleReport t method body in
  status ∈ [StatusOK; StatusBadRequest; StatusMethodNotAllowed] ∧
  (status = StatusMethodNotAllowed ↔ method ≠ "POST") ∧
  (status = StatusOK ↔
     method = "POST" ∧
     ∃ req outcome, body = Some req ∧ report_ClientID req ≠ "" ∧
       parseOutcome (Outcome req) = Some outcome) ∧
  (status ≠ StatusOK → t' = t) ∧
  (∀ req outcome, body = Some req → parseOutcome (Outcome req) = Some outcome →
     status = StatusOK →
     t' = (Tracker.ReportOutcome t (String.list_byte_of_string (report_ClientID req))
             outcome).1).
Proof.
  unfold handleReport, Report.
  destruct (decide (method = "POST")) as [Hm|Hm].
  - destruct body as [req|].
    + destruct (decide (report_ClientID req = "")) as [Hc|Hc].
      * split; [rewrite !elem_of_cons; auto|]. split; [done|]. split; [|split; [done|done]].
        split; [done|]. intros (_ & req' & o & [= <-] & Hne & _). done.
      * destruct (parseOutcome (Outcome req)) as [o|] eqn:Ho.
        -- split; [rewrite !elem_of_cons; auto|]. split; [done|]. split; [|split; [done|]].
           ++ split; [|done]. intros _. split; [done|]. eauto.
           ++ intros req' o' [= <-] Ho'. rewrite Ho in Ho'. by inversion Ho'; subst.
        -- split; [rewrite !elem_of_cons; auto|]. split; [done|]. split; [|split; [done|done]].
           split; [done|]. intros (_ & req' & o & [= <-] & _ & Ho'). congruence.
    + split; [rewrite !elem_of_cons; auto|]. split; [done|]. split; [|split; [done|done]].
      split; [done|]. by intros (_ & req' & o & ? & _).
  - split; [rewrite !elem_of_cons; auto|]. split; [done|]. split; [|split; [done|done]].
    split; [done|]. by intros [? _].
Qed.

(** X23: the [/register] handler answers 405 exactly for a method other than
    POST, 200 exactly for a POST whose body decodes and names a client, and
    400 otherwise; it never answers 500. A request not answered 200 leaves
    the tracker as it was and gets no response body; one answered 200 makes
    exactly one [RegisterRequest] call on the tracker and is told what the
    main structure decided. *)
Theorem register_answers_with_the_main_decision t (method : string)
    (body : option RegisterRequest) :
  let '(t', (status, resp)) :=
    handleRegister result_ShouldThrottle result_ResultStats t method body in
  status ∈ [StatusOK; StatusBadRequest; StatusMethodNotAllowed] ∧
  (status = StatusMethodNotAllowed ↔ method ≠ "POST") ∧
  (status = StatusOK ↔ method = "POST" ∧ ∃ req, body = Some req ∧ ClientID req ≠ "") ∧
  (status ≠ StatusOK → t' = t ∧ resp = None) ∧
  (∀ req, body = Some req → status = StatusOK →
     let id := String.list_byte_of_string (ClientID req) in
     let result :=
       (Request.RegisterRequest (Tracker.mainStructure t) id (Tracker.stateClient t)).1.2 in
     t' = (Tracker.RegisterRequest t id).1 ∧
     resp = Some {| ShouldThrottle := result_ShouldThrottle result;
                    Stats_ := result_ResultStats result |}).
Proof.
  unfold handleRegister, Register.
  destruct (decide (method = "POST")) as [Hm|Hm].
  - destruct body as [req|].
    + destruct (decide (ClientID req = "")) as [Hc|Hc].
      * split; [rewrite !elem_of_cons; auto|]. split; [done|]. split; [|split; [done|by intros ? _ [=]]].
        split; [done|]. intros (_ & req' & [= <-] & Hne). done.
      * rewrite RegisterRequest_fields. cbn zeta. cbn [fst snd].
        split; [rewrite !elem_of_cons; auto|]. split; [done|]. split; [|split; [done|]].
        -- split; [|done]. intros _. split; [done|]. eauto.
        -- intros req' [= <-] _. rewrite RegisterRequest_fields. done.
    + split; [rewrite !elem_of_cons; auto|]. split; [done|]. split; [|split; [done|by intros ? _ [=]]].
      split; [done|]. by intros (_ & req' & ? & _).
  - split; [rewrite !elem_of_cons; auto|]. split; [done|]. split; [|split; [done|by intros ? _ [=]]].
    split; [done|]. by intros [? _].
Qed.

End TransportProperties.
